(** * ICOMarketplace: a shallow embedding of the token-sale contract

    The contract (Solidity, [pragma solidity ^0.8.26]) keeps a registry of
    tokens offered for sale, sells them at a fixed unit price against native
    currency, and lets the registering creator take tokens back.

    The embedding follows the contract function by function.  Storage is an
    explicit [State] record; a function body is a computation in a small
    error monad ([result]); [execute] plays the part of the EVM around a
    call: it moves [msg.value], runs the body and, on a revert, gives back
    the state the call started from.  A purchase hands control to the
    creator of the listing when it forwards the payment; what runs then,
    calls of the contract included, is a script that comes with the
    call. *)

From stdpp Require Import gmap strings list fin_maps.
From Stdlib Require Import ZArith Lia.

Open Scope Z_scope.

(** ** Machine types *)

(** [address]: a 160-bit identifier; the zero address is the default value
    of an unset storage slot. *)
Abbreviation address := Z.

Definition zero_address : address := 0.

(** [uint256]: values live in [0, 2^256). *)
Definition uint256_limit : Z := 2 ^ 256.

Definition is_uint256 (x : Z) : Prop := 0 <= x < uint256_limit.

(** ** Reverts *)

(** One constructor per way a call of the contract can abort.  The string
    is the revert reason in the source. *)
Inductive Error : Type :=
| NotSupported             (* "Token Not Supported" *)
| Unauthorized             (* "Caller is not the Toke Creator" *)
| InvalidAmount            (* "Amount must be greater then 0", "Amount must be grater then Zero" *)
| ArithmeticOverflow       (* Panic(0x11) of a checked [*]; the bare require of [multiply] *)
| IncorrectPayment         (* "Incorrect Ether amount sent" *)
| PaymentForwardingFailed  (* "Failed to transfer Ether to token creator" *)
| TransferFailed           (* "TRANSFER FAILED", "Token Transfer Failed" *)
| InsufficientBalance      (* "Insufficient Tokan Balance" *)
| DirectPaymentRejected    (* "Contract dose not recive ETH directly" *)
| ArrayOutOfBounds         (* Panic(0x32) of an indexed write past the end *)
| ExternalCallFailed       (* a call of [IERC20] on an address that is not an asset *)
| InsufficientFunds.       (* the caller does not own the [msg.value] it attaches *)

Inductive result (A : Type) : Type :=
| Ok (a : A)
| Revert (e : Error).

Arguments Ok {A} a.
Arguments Revert {A} e.

#[export] Instance result_ret : MRet result := fun _ a => Ok a.

#[export] Instance result_bind : MBind result := fun _ _ k m =>
  match m with
  | Ok a => k a
  | Revert e => Revert e
  end.

(** [require(cond, reason)] *)
Definition require (cond : bool) (reason : Error) : result unit :=
  if cond then Ok tt else Revert reason.

(** Checked multiplication of Solidity 0.8: the product, or Panic(0x11). *)
Definition checked_mul (x y : Z) : result Z :=
  if x * y <? uint256_limit then Ok (x * y) else Revert ArithmeticOverflow.

(** ** Storage *)

Record TokenDetails : Type := {
  token : address;
  supported : bool;
  price : Z;
  creator : address;
  name : string;
  symbol : string
}.

(** The value read from a mapping slot that was never written. *)
Definition zero_details : TokenDetails :=
  {| token := zero_address; supported := false; price := 0;
     creator := zero_address; name := EmptyString; symbol := EmptyString |}.

Inductive Event : Type :=
| TokenTransferred (tok : address) (to : address) (amount : Z)
| TokenWidthdraw (tok : address) (to : address) (amount : Z)
| TokenAdded (tok : address) (p : Z) (c : address) (n s : string).

(** Modelled from the spec: the external asset behind [IERC20].  Its code is
    not part of the contract; it is taken to be a conforming ledger: a name,
    a symbol, and a balance per holder, where [transfer] moves units from the
    caller to the recipient and is rejected when the caller holds too few. *)
Record Asset : Type := {
  asset_name : string;
  asset_symbol : string;
  balances : gmap address Z
}.

Record State : Type := {
  tokenDetails : gmap address TokenDetails;
  allSupportedTokens : list address;
  owner : address;
  events : list Event;
  (* the chain around the contract *)
  ether : gmap address Z;
  assets : gmap address Asset
}.

(** [tokenDetails[_token]] *)
Definition details_at (s : State) (_token : address) : TokenDetails :=
  default zero_details (tokenDetails s !! _token).

(** [address.balance] *)
Definition ether_of (s : State) (a : address) : Z :=
  default 0 (ether s !! a).

Definition holding (a : Asset) (holder : address) : Z :=
  default 0 (balances a !! holder).

(** The units of asset [tok] that [holder] owns; 0 when [tok] is no asset. *)
Definition token_balance (s : State) (tok holder : address) : Z :=
  match assets s !! tok with
  | Some a => holding a holder
  | None => 0
  end.

Definition set_ether (s : State) (e : gmap address Z) : State :=
  {| tokenDetails := tokenDetails s; allSupportedTokens := allSupportedTokens s;
     owner := owner s; events := events s; ether := e; assets := assets s |}.

Definition set_assets (s : State) (m : gmap address Asset) : State :=
  {| tokenDetails := tokenDetails s; allSupportedTokens := allSupportedTokens s;
     owner := owner s; events := events s; ether := ether s; assets := m |}.

Definition emit (s : State) (ev : Event) : State :=
  {| tokenDetails := tokenDetails s; allSupportedTokens := allSupportedTokens s;
     owner := owner s; events := events s ++ [ev];
     ether := ether s; assets := assets s |}.

(** Moving [v] units of native currency between two accounts. *)
Definition move_ether (s : State) (from to : address) (v : Z) : State :=
  let e1 := <[from := ether_of s from - v]> (ether s) in
  set_ether s (<[to := default 0 (e1 !! to) + v]> e1).

(** ** Calls into the external asset

    A call of [IERC20] on an address where no asset lives reverts. *)

(** [token.name()] and [token.symbol()] *)
Definition asset_metadata (s : State) (tok : address) : result (string * string) :=
  match assets s !! tok with
  | Some a => Ok (asset_name a, asset_symbol a)
  | None => Revert ExternalCallFailed
  end.

(** [token.balanceOf(holder)] *)
Definition asset_balanceOf (s : State) (tok holder : address) : result Z :=
  match assets s !! tok with
  | Some a => Ok (holding a holder)
  | None => Revert ExternalCallFailed
  end.

(** [require(token.transfer(to, amount), reason)] called by [from]: a [false]
    result and a revert inside the asset both abort the caller. *)
Definition asset_transfer (s : State) (tok from to : address) (amount : Z)
  : result State :=
  match assets s !! tok with
  | Some a =>
      if holding a from <? amount then Revert TransferFailed
      else
        let b1 := <[from := holding a from - amount]> (balances a) in
        let b2 := <[to := default 0 (b1 !! to) + amount]> b1 in
        Ok (set_assets s
              (<[tok := {| asset_name := asset_name a;
                           asset_symbol := asset_symbol a;
                           balances := b2 |}]> (assets s)))
  | None => Revert ExternalCallFailed
  end.

(** ** The contract *)

(** A call of the contract, and what runs inside it.

    [buyToken] forwards the payment with [creator.call{value: ...}("")]:
    the creator's code then runs, with nothing to keep it from calling the
    contract again or from moving funds, before [buyToken] goes on.  A
    purchase therefore comes with a [Script]: what happens, in order, while
    the creator's code runs, namely calls of the contract (each with its
    caller, and a purchase among them with a script of its own), plain
    payments between accounts, and transfers of an asset by a holder. *)
Inductive Call : Type :=
| CreateICOSale (_token : address) (_price : Z)
| BuyToken (_token : address) (_amount : Z) (msg_value : Z) (inner : Script)
| WidthdrawToken (_token : address) (_amount : Z)
| DirectPayment (msg_value : Z)
with Script : Type :=
| Done
| Invoke (who : address) (c : Call) (rest : Script)
| SendEther (from to : address) (v : Z) (rest : Script)
| SendAsset (tok from to : address) (amount : Z) (rest : Script).

Scheme Call_mut := Induction for Call Sort Prop
  with Script_mut := Induction for Script Sort Prop.

Combined Scheme Call_Script_ind from Call_mut, Script_mut.

(** Whether every registration in a call, at any depth, is of a token
    that [allowed] admits. *)
Fixpoint registrations_in (allowed : address -> bool) (c : Call) : bool :=
  match c with
  | CreateICOSale _token _ => allowed _token
  | BuyToken _ _ _ inner => script_registrations_in allowed inner
  | WidthdrawToken _ _ => true
  | DirectPayment _ => true
  end
with script_registrations_in (allowed : address -> bool) (k : Script) : bool :=
  match k with
  | Done => true
  | Invoke _ c rest =>
      registrations_in allowed c && script_registrations_in allowed rest
  | SendEther _ _ _ rest => script_registrations_in allowed rest
  | SendAsset _ _ _ _ rest => script_registrations_in allowed rest
  end.

Inductive Outcome : Type :=
| Success
| Reverted (e : Error).

(** First loop of [getTokenCreatedBy]: count the entries of the index whose
    listing has the creator asked for.  A loop
    [for (i = 0; i < ids.length; i++)] whose body reads [ids[i]] is a
    left-to-right pass over [ids]; its counters are bounded by the length of
    the array, so their [++] cannot overflow, and they are [nat]. *)
Fixpoint count_created_by (reg : gmap address TokenDetails) (_creator : address)
    (ids : list address) (count : nat) : nat :=
  match ids with
  | [] => count
  | t :: rest =>
      if creator (default zero_details (reg !! t)) =? _creator
      then count_created_by reg _creator rest (S count)
      else count_created_by reg _creator rest count
  end.

(** [tokens[index] = d] on a memory array of fixed length. *)
Definition store (tokens : list TokenDetails) (index : nat) (d : TokenDetails)
  : result (list TokenDetails) :=
  if (index <? length tokens)%nat then Ok (<[index := d]> tokens)
  else Revert ArrayOutOfBounds.

(** Second loop of [getTokenCreatedBy]: write the matching listings into
    [tokens], from position [index] on. *)
Fixpoint fill_created_by (reg : gmap address TokenDetails) (_creator : address)
    (ids : list address) (tokens : list TokenDetails) (index : nat)
  : result (list TokenDetails) :=
  match ids with
  | [] => Ok tokens
  | t :: rest =>
      if creator (default zero_details (reg !! t)) =? _creator
      then tokens' ← store tokens index (default zero_details (reg !! t));
           fill_created_by reg _creator rest tokens' (S index)
      else fill_created_by reg _creator rest tokens index
  end.

(** The loop of [getAllTokens]: write the listing of every entry of the
    index into [tokens], entry [i] into cell [i]. *)
Fixpoint fill_all (reg : gmap address TokenDetails)
    (ids : list address) (tokens : list TokenDetails) (i : nat)
  : result (list TokenDetails) :=
  match ids with
  | [] => Ok tokens
  | t :: rest =>
      tokens' ← store tokens i (default zero_details (reg !! t));
      fill_all reg rest tokens' (S i)
  end.

Section Marketplace.

(** [address(this)]. *)
Variable this : address.

(** Whether a plain transfer of native currency to an account goes through
    (an externally owned account, or a contract with a payable fallback). *)
Variable payable_ok : address -> bool.

(** The contract's own [receive()] reverts, so it takes no plain transfer. *)
Definition accepts_ether (a : address) : bool :=
  if decide (a = this) then false else payable_ok a.

(** The modifiers: each is a check that runs before the body. *)
Definition supportedToken (s : State) (_token : address) : result unit :=
  require (supported (details_at s _token)) NotSupported.

Definition onlyOwnwr (s : State) (msg_sender : address) : result unit :=
  require (msg_sender =? owner s) Unauthorized.

Definition onlyCreator (s : State) (msg_sender : address) (_token : address)
  : result unit :=
  require (msg_sender =? creator (details_at s _token)) Unauthorized.

(** [constructor()] *)
Definition constructor (msg_sender : address)
    (chain_ether : gmap address Z) (chain_assets : gmap address Asset) : State :=
  {| tokenDetails := ∅; allSupportedTokens := []; owner := msg_sender;
     events := []; ether := chain_ether; assets := chain_assets |}.

(** [receive() external payable] *)
Definition receive (s : State) : result State :=
  Revert DirectPaymentRejected.

Definition createICOSale (s : State) (msg_sender : address)
    (_token : address) (_price : Z) : result State :=
  '(tokenName, tokenSymbol) ← asset_metadata s _token;
  mret {| tokenDetails :=
            <[_token := {| token := _token; supported := true;
                           price := _price; creator := msg_sender;
                           name := tokenName; symbol := tokenSymbol |}]>
              (tokenDetails s);
          allSupportedTokens := allSupportedTokens s ++ [_token];
          owner := owner s;
          events := events s ++
                    [TokenAdded _token _price msg_sender tokenName tokenSymbol];
          ether := ether s;
          assets := assets s |}.

(** [require(y == 0 || (z = x * y) / y == x)]; [z] is 0 when [y] is. *)
Definition multiply (x y : Z) : result Z :=
  if y =? 0 then Ok 0
  else z ← checked_mul x y;
       require (z / y =? x) ArithmeticOverflow;;
       mret z.

(** [to.call{value: v}("")]: the flag [sent] and the state after it.  When
    the payment goes through, the code of [to] runs on the state that has
    the payment made; [code] is what it does to the state.  A call that
    fails leaves nothing behind. *)
Definition call_value (code : State -> State) (s : State) (to : address) (v : Z)
  : bool * State :=
  if (v <=? ether_of s this) && accepts_ether to
  then (true, code (move_ether s this to v))
  else (false, s).

(** The body of [buyToken]; [s] already holds [msg_value] on the
    contract's account, and [code] is what the creator's code does when it
    is paid. *)
Definition buyToken (code : State -> State) (s : State)
    (msg_sender : address) (msg_value : Z)
    (_token : address) (_amount : Z) : result State :=
  supportedToken s _token;;
  require (0 <? _amount) InvalidAmount;;
  let details := details_at s _token in
  totalCost ← multiply (price details) _amount;
  require (msg_value =? totalCost) IncorrectPayment;;
  let '(sent, s1) := call_value code s (creator details) msg_value in
  require sent PaymentForwardingFailed;;
  scaled ← checked_mul _amount (10 ^ 18);
  s2 ← asset_transfer s1 _token this msg_sender scaled;
  mret (emit s2 (TokenTransferred _token msg_sender _amount)).

Definition getBalance (s : State) (_token : address) : result Z :=
  require (supported (details_at s _token)) NotSupported;;
  asset_balanceOf s _token this.

Definition getSupportedTokens (s : State) : list address :=
  allSupportedTokens s.

Definition widthdrawToken (s : State) (msg_sender : address)
    (_token : address) (_amount : Z) : result State :=
  onlyCreator s msg_sender _token;;
  supportedToken s _token;;
  require (0 <? _amount) InvalidAmount;;
  balance ← asset_balanceOf s _token this;
  require (_amount <=? balance) InsufficientBalance;;
  s1 ← asset_transfer s _token this msg_sender _amount;
  mret (emit s1 (TokenWidthdraw _token msg_sender _amount)).

Definition getTokenDetails (s : State) (_token : address) : result TokenDetails :=
  require (supported (details_at s _token)) NotSupported;;
  mret (details_at s _token).

Definition getTokenCreatedBy (s : State) (_creator : address)
  : result (list TokenDetails) :=
  let count := count_created_by (tokenDetails s) _creator (allSupportedTokens s) 0 in
  let tokens := replicate count zero_details in
  fill_created_by (tokenDetails s) _creator (allSupportedTokens s) tokens 0.

Definition getAllTokens (s : State) : result (list TokenDetails) :=
  let length := length (allSupportedTokens s) in
  let tokens := replicate length zero_details in
  fill_all (tokenDetails s) (allSupportedTokens s) tokens 0.

(** *** The EVM around a call

    A call with a value first moves the value from the caller to the
    contract (a caller that does not own it cannot make the call); only
    [buyToken] and [receive] are payable.  A body that reverts leaves the
    state the call started from. *)
(** A plain payment made while a script runs: by an account other than
    the contract, of an amount it owns, to an account that takes it. *)
Definition pay (s : State) (from to : address) (v : Z) : State :=
  if bool_decide (from <> this) && (0 <=? v) && (v <=? ether_of s from)
     && accepts_ether to
  then move_ether s from to v
  else s.

(** A transfer of an asset made while a script runs: [token.transfer]
    called by a holder other than the contract. *)
Definition give (s : State) (tok from to : address) (amount : Z) : State :=
  if bool_decide (from <> this) && (0 <=? amount)
  then match asset_transfer s tok from to amount with
       | Ok s' => s'
       | Revert _ => s
       end
  else s.

Fixpoint run_body (s : State) (msg_sender : address) (c : Call) {struct c}
  : result State :=
  match c with
  | CreateICOSale _token _price => createICOSale s msg_sender _token _price
  | BuyToken _token _amount msg_value inner =>
      require (msg_value <=? ether_of s msg_sender) InsufficientFunds;;
      buyToken (fun st => run_script st inner)
               (move_ether s msg_sender this msg_value)
               msg_sender msg_value _token _amount
  | WidthdrawToken _token _amount => widthdrawToken s msg_sender _token _amount
  | DirectPayment msg_value =>
      require (msg_value <=? ether_of s msg_sender) InsufficientFunds;;
      receive (move_ether s msg_sender this msg_value)
  end

(** What a script does to the state.  A call in it that reverts leaves the
    state as it found it, and the script goes on; the contract itself makes
    no call, so a step in its name does nothing. *)
with run_script (s : State) (k : Script) {struct k} : State :=
  match k with
  | Done => s
  | Invoke who c rest =>
      run_script
        (if bool_decide (who <> this)
         then match run_body s who c with
              | Ok s' => s'
              | Revert _ => s
              end
         else s)
        rest
  | SendEther from to v rest => run_script (pay s from to v) rest
  | SendAsset tok from to amount rest =>
      run_script (give s tok from to amount) rest
  end.

Definition execute (s : State) (msg_sender : address) (c : Call) : State * Outcome :=
  match run_body s msg_sender c with
  | Ok s' => (s', Success)
  | Revert e => (s, Reverted e)
  end.

(** A sequence of calls, each with its caller, run one after the other. *)
Definition execute_all (s : State) (calls : list (address * Call)) : State :=
  foldl (fun st '(who, c) => (execute st who c).1) s calls.

(** *** States the contract can be in

    The contract is deployed, then called by anyone with anything; between
    two calls the chain around it may change (deposits of assets into the
    contract happen that way), which never touches its storage. *)
Inductive reachable : State -> Prop :=
| reachable_deploy who e m :
    reachable (constructor who e m)
| reachable_call s who c :
    reachable s -> reachable (execute s who c).1
| reachable_chain s e m :
    reachable s -> reachable (set_assets (set_ether s e) m).

(** The registry: the listings and the enumeration index. *)
Definition registry (s : State) : gmap address TokenDetails * list address :=
  (tokenDetails s, allSupportedTokens s).

(** What every stored listing satisfies in a reachable state. *)
Definition listing_wf (s : State) : Prop :=
  forall t d, tokenDetails s !! t = Some d ->
    supported d = true /\ token d = t /\ t ∈ allSupportedTokens s.



(** The state in which the creator's code returns, in a purchase of [t] by
    [buyer] that got as far as forwarding [value]. *)
Definition after_creator_code (s : State) (buyer t : address) (value : Z)
    (inner : Script) : State :=
  run_script
    (move_ether (move_ether s buyer this value)
                this (creator (details_at s t)) value)
    inner.

(** How often [t] occurs in the enumeration index. *)
Definition occurrences (t : address) (ids : list address) : nat :=
  length (filter (fun x => x = t) ids).

(** The listings of the entries of [ids] created by [_creator], in the
    order of [ids]. *)
Definition created_by (reg : gmap address TokenDetails) (_creator : address)
    (ids : list address) : list TokenDetails :=
  map (fun t => default zero_details (reg !! t))
      (filter (fun t => creator (default zero_details (reg !! t)) = _creator) ids).

(** The selection by creator as the description words it: one pass over
    the index that appends each matching listing to a growing result. *)
Definition listingsByCreator_single_pass (s : State) (_creator : address)
  : list TokenDetails :=
  foldl (fun acc t =>
           if creator (details_at s t) =? _creator
           then acc ++ [details_at s t] else acc)
        [] (allSupportedTokens s).

(** Every entry of the index has a stored listing. *)
Definition index_wf (s : State) : Prop :=
  forall t, t ∈ allSupportedTokens s -> is_Some (tokenDetails s !! t).



(** ** Arithmetic of the guards *)

Lemma uint256_limit_pos : 0 < uint256_limit.
Proof. reflexivity. Qed.

Lemma checked_mul_fits x y :
  x * y < uint256_limit -> checked_mul x y = Ok (x * y).
Proof.
  intros H. unfold checked_mul.
  destruct (Z.ltb_spec (x * y) uint256_limit); [done | lia].
Qed.

Lemma checked_mul_overflow x y :
  uint256_limit <= x * y -> checked_mul x y = Revert ArithmeticOverflow.
Proof.
  intros H. unfold checked_mul.
  destruct (Z.ltb_spec (x * y) uint256_limit); [lia | done].
Qed.

Lemma multiply_fits x y :
  0 < y -> x * y < uint256_limit -> multiply x y = Ok (x * y).
Proof.
  intros Hy H. unfold multiply.
  destruct (Z.eqb_spec y 0) as [-> | _]; [lia |].
  rewrite checked_mul_fits by done. simpl.
  rewrite Z.div_mul by lia. by rewrite Z.eqb_refl.
Qed.

Lemma multiply_overflow x y :
  0 < y -> uint256_limit <= x * y -> multiply x y = Revert ArithmeticOverflow.
Proof.
  intros Hy H. unfold multiply.
  destruct (Z.eqb_spec y 0) as [-> | _]; [lia |].
  by rewrite checked_mul_overflow.
Qed.

(** The test on the wrapped product, [(x * y mod 2^256) / y != x], holds
    exactly when the true product leaves the word. *)
Lemma wrapped_check_exact x y :
  is_uint256 x -> 0 < y ->
  ((x * y) mod uint256_limit) / y <> x <-> uint256_limit <= x * y.
Proof.
  intros [Hx0 Hx1] Hy. pose proof uint256_limit_pos as HM. split.
  - intros Hne. destruct (Z_lt_le_dec (x * y) uint256_limit) as [Hlt | ]; [| done].
    exfalso. apply Hne.
    rewrite Z.mod_small by nia. apply Z.div_mul. lia.
  - intros Hge Heq.
    assert (Hlt : (x * y) mod uint256_limit < x * y).
    { pose proof (Z.mod_pos_bound (x * y) uint256_limit HM). lia. }
    pose proof (Z.mul_div_le ((x * y) mod uint256_limit) y Hy) as Hle.
    rewrite Heq in Hle. lia.
Qed.

(** ** What the steps of a body leave alone *)

(** ** What the steps of a body leave alone *)

Lemma require_ok cond reason : require cond reason = Ok tt -> cond = true.
Proof. by destruct cond. Qed.

Lemma details_at_registry s s' t :
  tokenDetails s' = tokenDetails s -> details_at s' t = details_at s t.
Proof. unfold details_at. by intros ->. Qed.

Lemma move_ether_registry s from to v :
  registry (move_ether s from to v) = registry s.
Proof. reflexivity. Qed.

Lemma move_ether_assets s from to v :
  assets (move_ether s from to v) = assets s.
Proof. reflexivity. Qed.

Lemma asset_transfer_registry s tok from to amount s' :
  asset_transfer s tok from to amount = Ok s' ->
  registry s' = registry s /\ ether s' = ether s.
Proof.
  unfold asset_transfer. intros H.
  destruct (assets s !! tok); [| done].
  destruct (_ <? _); [done |].
  by injection H as <-.
Qed.

(** Splitting a bind whose result is known to be [Ok]. *)
Lemma bind_ok {A B} (m : result A) (k : A -> result B) b :
  m ≫= k = Ok b -> exists a, m = Ok a /\ k a = Ok b.
Proof. destruct m as [a | e]; [by exists a | done]. Qed.

Ltac split_bind H :=
  let x := fresh "x" in
  let Hx := fresh "Hx" in
  apply bind_ok in H; destruct H as (x & Hx & H).

Lemma require_inv cond reason u : require cond reason = Ok u -> cond = true.
Proof. by destruct cond. Qed.

Lemma execute_revert s who c e :
  run_body s who c = Revert e -> execute s who c = (s, Reverted e).
Proof. unfold execute. by intros ->. Qed.

Lemma execute_ok s who c s' :
  run_body s who c = Ok s' -> execute s who c = (s', Success).
Proof. unfold execute. by intros ->. Qed.


Lemma createICOSale_inv s who t p s' :
  createICOSale s who t p = Ok s' ->
  exists a, assets s !! t = Some a /\
    tokenDetails s' =
      <[t := {| token := t; supported := true; price := p; creator := who;
                name := asset_name a; symbol := asset_symbol a |}]>
        (tokenDetails s) /\
    allSupportedTokens s' = allSupportedTokens s ++ [t] /\
    owner s' = owner s /\
    events s' = events s ++ [TokenAdded t p who (asset_name a) (asset_symbol a)].
Proof.
  unfold createICOSale, asset_metadata. intros H.
  destruct (assets s !! t) as [a |]; [| done]. simpl in H.
  injection H as <-. by exists a.
Qed.

(** ** The two ledgers *)

(** A movement of [v] from [from] to [to] in a table of balances. *)
Lemma moved_balance (m : gmap address Z) (from to a : address) (v : Z) :
  let m1 := <[from := default 0 (m !! from) - v]> m in
  default 0 (<[to := default 0 (m1 !! to) + v]> m1 !! a) =
    if decide (a = to)
    then (if decide (to = from) then default 0 (m !! from) - v
          else default 0 (m !! to)) + v
    else if decide (a = from) then default 0 (m !! from) - v
         else default 0 (m !! a).
Proof.
  simpl. repeat case_decide; simplify_map_eq; done.
Qed.

Lemma ether_of_move s from to v a :
  ether_of (move_ether s from to v) a =
    if decide (a = to)
    then (if decide (to = from) then ether_of s from - v else ether_of s to) + v
    else if decide (a = from) then ether_of s from - v else ether_of s a.
Proof. unfold ether_of, move_ether. simpl. apply moved_balance. Qed.

Lemma token_balance_move_ether s from to v tok a :
  token_balance (move_ether s from to v) tok a = token_balance s tok a.
Proof. reflexivity. Qed.

Lemma asset_transfer_enough s tok from to amount :
  0 < amount -> amount <= token_balance s tok from ->
  exists s', asset_transfer s tok from to amount = Ok s'.
Proof.
  unfold asset_transfer, token_balance. intros Hpos Hle.
  destruct (assets s !! tok) as [a |]; [| lia].
  destruct (Z.ltb_spec (holding a from) amount); [lia | eauto].
Qed.

Lemma asset_transfer_balance s tok from to amount s' a :
  asset_transfer s tok from to amount = Ok s' ->
  token_balance s' tok a =
    if decide (a = to)
    then (if decide (to = from) then token_balance s tok from - amount
          else token_balance s tok to) + amount
    else if decide (a = from) then token_balance s tok from - amount
         else token_balance s tok a.
Proof.
  unfold asset_transfer, token_balance. intros H.
  destruct (assets s !! tok) as [ast |]; [| done].
  destruct (_ <? _); [done |].
  injection H as <-. simpl. rewrite lookup_insert_eq.
  unfold holding. simpl. apply moved_balance.
Qed.

Lemma asset_transfer_inv s tok from to amount s' :
  asset_transfer s tok from to amount = Ok s' ->
  amount <= token_balance s tok from /\ is_Some (assets s !! tok) /\
  tokenDetails s' = tokenDetails s /\ allSupportedTokens s' = allSupportedTokens s /\
  owner s' = owner s /\ events s' = events s /\ ether s' = ether s.
Proof.
  unfold asset_transfer, token_balance. intros H.
  destruct (assets s !! tok) as [a |]; [| done].
  destruct (Z.ltb_spec (holding a from) amount); [done |].
  injection H as <-. by split_and!.
Qed.


(** ** The bodies, step by step *)

Lemma run_body_buy s who t amount v inner :
  run_body s who (BuyToken t amount v inner) =
  (require (v <=? ether_of s who) InsufficientFunds;;
   buyToken (fun st => run_script st inner) (move_ether s who this v)
            who v t amount).
Proof. reflexivity. Qed.

Lemma run_script_invoke s who c rest :
  run_script s (Invoke who c rest) =
  run_script (if bool_decide (who <> this) then (execute s who c).1 else s) rest.
Proof.
  unfold execute. simpl. destruct (bool_decide _); [| done].
  by destruct (run_body s who c).
Qed.

Lemma run_script_pay s from to v rest :
  run_script s (SendEther from to v rest) = run_script (pay s from to v) rest.
Proof. reflexivity. Qed.

Lemma run_script_give s tok from to amount rest :
  run_script s (SendAsset tok from to amount rest)
  = run_script (give s tok from to amount) rest.
Proof. reflexivity. Qed.

(** ** More about the guards and the views *)

Lemma multiply_spec x y z :
  0 <= y ->
  multiply x y = Ok z <-> z = x * y /\ x * y < uint256_limit.
Proof.
  intros Hy. destruct (Z.eq_dec y 0) as [-> | Hne].
  - unfold multiply. simpl. rewrite Z.mul_0_r. split.
    + intros [= <-]. split; [done | reflexivity].
    + by intros [-> _].
  - destruct (Z_lt_le_dec (x * y) uint256_limit) as [Hlt | Hge].
    + rewrite multiply_fits by lia. split; [intros [= <-] | intros [-> _]]; done.
    + rewrite multiply_overflow by lia. split; [done | lia].
Qed.

(** What a completed [buyToken] body went through. *)
Lemma buyToken_inv code s who v t amount s' :
  buyToken code s who v t amount = Ok s' ->
  supported (details_at s t) = true /\
  0 < amount /\
  v = price (details_at s t) * amount /\
  v < uint256_limit /\
  v <= ether_of s this /\
  accepts_ether (creator (details_at s t)) = true /\
  amount * 10 ^ 18 < uint256_limit /\
  exists s2,
    asset_transfer (code (move_ether s this (creator (details_at s t)) v))
                   t this who (amount * 10 ^ 18) = Ok s2 /\
    s' = emit s2 (TokenTransferred t who amount).
Proof.
  unfold buyToken, supportedToken. intros H.
  split_bind H. apply require_inv in Hx.
  split_bind H. apply require_inv in Hx0. apply Z.ltb_lt in Hx0.
  split_bind H. apply multiply_spec in Hx1 as [-> Hfit]; [| lia].
  split_bind H. apply require_inv in Hx1. apply Z.eqb_eq in Hx1 as ->.
  unfold call_value in H.
  destruct (_ && _) eqn:Hsent; [| done].
  apply andb_true_iff in Hsent as [Hown%Z.leb_le Hacc].
  split_bind H. split_bind H.
  unfold checked_mul in Hx2.
  destruct (Z.ltb_spec (amount * 10 ^ 18) uint256_limit); [| done].
  injection Hx2 as <-.
  split_bind H. injection H as <-.
  split_and!; try done. by exists x3.
Qed.

(** The body of [buyToken] runs to its end when the cost is paid exactly,
    the creator takes the payment and, when the creator's code returns, the
    contract holds the scaled amount. *)
Lemma buyToken_runs code s who v t amount :
  supported (details_at s t) = true ->
  0 < amount ->
  v = price (details_at s t) * amount ->
  v < uint256_limit ->
  v <= ether_of s this ->
  accepts_ether (creator (details_at s t)) = true ->
  amount * 10 ^ 18 < uint256_limit ->
  amount * 10 ^ 18
    <= token_balance (code (move_ether s this (creator (details_at s t)) v))
                     t this ->
  exists s2,
    asset_transfer (code (move_ether s this (creator (details_at s t)) v))
                   t this who (amount * 10 ^ 18) = Ok s2 /\
    buyToken code s who v t amount = Ok (emit s2 (TokenTransferred t who amount)).
Proof.
  intros Hsup Hpos Hv Hfit Hown Hacc Hscale Hheld.
  destruct (asset_transfer_enough
              (code (move_ether s this (creator (details_at s t)) v))
              t this who (amount * 10 ^ 18)) as [s2 Hs2]; [lia | done |].
  exists s2. split; [done |].
  unfold buyToken, supportedToken. rewrite Hsup. simpl.
  destruct (Z.ltb_spec 0 amount); [| lia]. simpl.
  rewrite multiply_fits by lia. simpl.
  rewrite <- Hv, Z.eqb_refl. simpl.
  unfold call_value. rewrite Hacc.
  destruct (Z.leb_spec v (ether_of s this)); [| lia]. simpl.
  rewrite checked_mul_fits by done. simpl.
  by rewrite Hs2.
Qed.

Lemma run_body_buy_inv s buyer t amount value inner s' :
  run_body s buyer (BuyToken t amount value inner) = Ok s' ->
  value <= ether_of s buyer /\
  buyToken (fun st => run_script st inner)
           (move_ether s buyer this value) buyer value t amount = Ok s'.
Proof.
  rewrite run_body_buy. intros H. split_bind H. apply require_inv in Hx.
  by apply Z.leb_le in Hx.
Qed.

(** What a completed [widthdrawToken] body went through. *)
Lemma widthdrawToken_inv s who t amount s' :
  widthdrawToken s who t amount = Ok s' ->
  who = creator (details_at s t) /\
  supported (details_at s t) = true /\
  0 < amount /\
  amount <= token_balance s t this /\
  exists s1,
    asset_transfer s t this who amount = Ok s1 /\
    s' = emit s1 (TokenWidthdraw t who amount).
Proof.
  unfold widthdrawToken, onlyCreator, supportedToken. intros H.
  split_bind H. apply require_inv in Hx. apply Z.eqb_eq in Hx.
  split_bind H. apply require_inv in Hx0.
  split_bind H. apply require_inv in Hx1. apply Z.ltb_lt in Hx1.
  split_bind H. split_bind H. split_bind H. injection H as <-.
  pose proof (asset_transfer_inv _ _ _ _ _ _ Hx4) as (Hle & _).
  split_and!; try done. by exists x4.
Qed.

(** ** What holds across a call, nested calls included *)

Section Preserved.

(** [allowed]: the tokens that may get registered; [R]: a relation between
    the state before and the state after that every elementary step
    keeps. *)
Variable allowed : address -> bool.
Variable R : State -> State -> Prop.

Hypothesis R_refl : forall s, R s s.
Hypothesis R_trans : forall s1 s2 s3, R s1 s2 -> R s2 s3 -> R s1 s3.
Hypothesis R_move : forall s from to v, R s (move_ether s from to v).
Hypothesis R_transfer : forall s tok from to amount s',
  asset_transfer s tok from to amount = Ok s' -> R s s'.
Hypothesis R_register : forall s who t p s',
  allowed t = true -> createICOSale s who t p = Ok s' -> R s s'.
Hypothesis R_emit : forall s ev, R s (emit s ev).

(** Then every call, and every script, whose registrations are all allowed
    relates the state it starts from to the state it ends in. *)
Lemma preserved :
  (forall c, registrations_in allowed c = true ->
             forall s who, R s (execute s who c).1) /\
  (forall k, script_registrations_in allowed k = true ->
             forall s, R s (run_script s k)).
Proof.
  apply Call_Script_ind.
  - intros t p Hal s who. unfold execute. simpl.
    destruct (createICOSale s who t p) as [s' |] eqn:H; simpl; [| done].
    by eapply R_register.
  - intros t amount v inner IH Hal s who. unfold execute.
    destruct (run_body s who (BuyToken t amount v inner)) as [s' |] eqn:H;
      simpl; [| done].
    apply run_body_buy_inv in H as [_ H].
    apply buyToken_inv in H as (_ & _ & _ & _ & _ & _ & _ & s2 & Hs2 & ->).
    eapply R_trans; [apply R_move |].
    eapply R_trans; [apply R_move |].
    eapply R_trans; [apply IH, Hal |].
    eapply R_trans; [eapply R_transfer, Hs2 | apply R_emit].
  - intros t amount _ s who. unfold execute. simpl.
    destruct (widthdrawToken s who t amount) as [s' |] eqn:H; simpl; [| done].
    apply widthdrawToken_inv in H as (_ & _ & _ & _ & s1 & Hs1 & ->).
    eapply R_trans; [eapply R_transfer, Hs1 | apply R_emit].
  - intros v _ s who. unfold execute. simpl.
    by destruct (v <=? ether_of s who).
  - done.
  - intros who c IHc rest IHrest Hal s. simpl in Hal.
    apply andb_true_iff in Hal as [Hc Hrest].
    rewrite run_script_invoke.
    eapply R_trans; [| by apply IHrest].
    destruct (bool_decide _); [by apply IHc | done].
  - intros from to v rest IH Hal s. rewrite run_script_pay.
    eapply R_trans; [| by apply IH].
    unfold pay. by destruct (_ && _).
  - intros tok from to amount rest IH Hal s. rewrite run_script_give.
    eapply R_trans; [| by apply IH].
    unfold give. destruct (_ && _); [| done].
    destruct (asset_transfer s tok from to amount) eqn:H; [| done].
    by eapply R_transfer.
Qed.

End Preserved.

Lemma registrations_in_any :
  (forall c, registrations_in (fun _ => true) c = true) /\
  (forall k, script_registrations_in (fun _ => true) k = true).
Proof.
  apply Call_Script_ind; simpl; try done.
  intros who c -> rest ->. done.
Qed.




(** ** The registry in reachable states *)

(** ** The registry in reachable states *)

Lemma listing_wf_registry s s' :
  registry s' = registry s -> listing_wf s -> listing_wf s'.
Proof.
  unfold registry, listing_wf. intros H Hwf t d Ht.
  injection H as H1 H2. rewrite H1 in Ht. rewrite H2. by apply Hwf.
Qed.

Lemma index_wf_registry s s' :
  registry s' = registry s -> index_wf s -> index_wf s'.
Proof.
  unfold registry, index_wf. intros H Hwf t Ht.
  injection H as H1 H2. rewrite H1. rewrite H2 in Ht. by apply Hwf.
Qed.

Lemma createICOSale_wf s who t p s' :
  createICOSale s who t p = Ok s' -> listing_wf s -> listing_wf s'.
Proof.
  unfold createICOSale, asset_metadata. intros H Hwf t' d.
  destruct (assets s !! t); [| done]. simpl in H.
  injection H as <-. simpl.
  destruct (decide (t' = t)) as [-> | Hne].
  - rewrite lookup_insert_eq. intros [= <-]. simpl.
    split_and!; [done | done |]. apply elem_of_app. right. by apply list_elem_of_singleton.
  - rewrite lookup_insert_ne by done. intros Ht'.
    destruct (Hwf t' d Ht') as (? & ? & ?).
    split_and!; [done | done |]. apply elem_of_app. by left.
Qed.

Lemma createICOSale_index_wf s who t p s' :
  createICOSale s who t p = Ok s' -> index_wf s -> index_wf s'.
Proof.
  intros H Hwf t' Ht'.
  apply createICOSale_inv in H as (a & _ & Hreg & Hidx & _).
  rewrite Hreg. rewrite Hidx in Ht'.
  destruct (decide (t' = t)) as [-> | Hne].
  - by rewrite lookup_insert_eq.
  - rewrite lookup_insert_ne by done. apply Hwf.
    apply elem_of_app in Ht' as [? | Ht']; [done |].
    by apply list_elem_of_singleton in Ht'.
Qed.

(** Every call, with whatever runs inside it, keeps the listings and the
    index well formed. *)
Lemma execute_wf s who c :
  listing_wf s /\ index_wf s ->
  listing_wf (execute s who c).1 /\ index_wf (execute s who c).1.
Proof.
  refine (proj1 (preserved (fun _ => true)
                   (fun s s' => listing_wf s /\ index_wf s ->
                                listing_wf s' /\ index_wf s')
                   _ _ _ _ _ _)
                c (proj1 registrations_in_any c) s who); try done.
  - intros s1 s2 s3 H1 H2 H. by apply H2, H1.
  - intros s0 tok from to amount s' H [H1 H2].
    apply asset_transfer_registry in H as [H _].
    split; [by eapply listing_wf_registry | by eapply index_wf_registry].
  - intros s0 w t p s' _ H [H1 H2].
    split; [by eapply createICOSale_wf | by eapply createICOSale_index_wf].
Qed.

Lemma reachable_wf s : reachable s -> listing_wf s /\ index_wf s.
Proof.
  induction 1 as [who e m | s who c _ IH | s e m _ IH].
  - split.
    + intros t d. simpl. by rewrite lookup_empty.
    + intros t Ht. simpl in Ht. by apply elem_of_nil in Ht.
  - by apply execute_wf.
  - destruct IH as [H1 H2].
    split; [by eapply listing_wf_registry | by eapply index_wf_registry].
Qed.

Lemma reachable_listing_wf s : reachable s -> listing_wf s.
Proof. by intros [? _]%reachable_wf. Qed.

Lemma reachable_index_wf s : reachable s -> index_wf s.
Proof. by intros [_ ?]%reachable_wf. Qed.

(** In a reachable state a token is supported exactly when it has a
    stored listing, and then it is in the index. *)
Lemma reachable_supported s t :
  reachable s -> supported (details_at s t) = true ->
  is_Some (tokenDetails s !! t) /\ t ∈ allSupportedTokens s.
Proof.
  intros Hr%reachable_listing_wf. unfold details_at.
  destruct (tokenDetails s !! t) as [d |] eqn:Ht; [| done].
  intros _. split; [done |]. by destruct (Hr t d Ht) as (_ & _ & ?).
Qed.

Lemma reachable_unsupported s t :
  reachable s -> supported (details_at s t) = false ->
  tokenDetails s !! t = None.
Proof.
  intros Hr%reachable_listing_wf. unfold details_at.
  destruct (tokenDetails s !! t) as [d |] eqn:Ht; [| done].
  simpl. intros Hs. destruct (Hr t d Ht) as (? & _ & _). congruence.
Qed.

(** ** Buying *)

(** A purchase in which the creator's code does nothing: when the cost is
    paid exactly, the creator takes the payment and the contract holds the
    scaled amount, it completes with the payment made and the scaled amount
    transferred. *)
Lemma execute_buy_plain s buyer t amount value :
  supported (details_at s t) = true ->
  0 < amount ->
  value = price (details_at s t) * amount ->
  value < uint256_limit ->
  value <= ether_of s buyer ->
  0 <= ether_of s this ->
  buyer <> this ->
  accepts_ether (creator (details_at s t)) = true ->
  amount * 10 ^ 18 < uint256_limit ->
  amount * 10 ^ 18 <= token_balance s t this ->
  exists s2,
    asset_transfer
      (move_ether (move_ether s buyer this value)
                  this (creator (details_at s t)) value)
      t this buyer (amount * 10 ^ 18) = Ok s2 /\
    execute s buyer (BuyToken t amount value Done)
    = (emit s2 (TokenTransferred t buyer amount), Success).
Proof.
  intros Hsup Hpos Hv Hfit Hown Hbal Hbuyer Hacc Hscale Hheld.
  set (s0 := move_ether s buyer this value).
  assert (Hthis : ether_of s0 this = ether_of s this + value).
  { unfold s0. rewrite ether_of_move. repeat case_decide; congruence. }
  destruct (buyToken_runs (fun st => run_script st Done) s0 buyer value t amount)
    as (s2 & Hs2 & Hbuy); try done; try lia.
  exists s2. split; [exact Hs2 |].
  apply execute_ok. rewrite run_body_buy.
  destruct (Z.leb_spec value (ether_of s buyer)); [| lia]. exact Hbuy.
Qed.


(** The balances of native currency after the two payments of a purchase:
    from the buyer to the contract, from the contract to the creator. *)
Lemma ether_of_forwarded s buyer cr value a :
  buyer <> this -> cr <> this ->
  ether_of (move_ether (move_ether s buyer this value) this cr value) a =
    ether_of s a
    + (if decide (a = cr) then value else 0)
    - (if decide (a = buyer) then value else 0).
Proof.
  intros Hbuyer Hcr. rewrite !ether_of_move.
  repeat case_decide; subst; try congruence; lia.
Qed.

Lemma accepts_ether_not_this a : accepts_ether a = true -> a <> this.
Proof. unfold accepts_ether. by case_decide. Qed.

(** C1 (as amended): for a supported token with listing price p, an
    amount > 0 and a paid value equal to p * amount, the purchase goes
    through when the creator takes the payment without its code doing
    anything (a plain account), and the contract holds the scaled amount,
    amount * 10^18, which fits a word; the creator (if not the buyer
    itself) then owns the paid value more, and the buyer
    amount * 10^18 units of the token more. *)
Theorem buy_exact_payment s buyer t amount value :
  supported (details_at s t) = true ->
  0 < amount ->
  value = price (details_at s t) * amount ->
  is_uint256 value ->
  value <= ether_of s buyer ->
  0 <= ether_of s this ->
  buyer <> this ->
  accepts_ether (creator (details_at s t)) = true ->
  buyer <> creator (details_at s t) ->
  amount * 10 ^ 18 < uint256_limit ->
  amount * 10 ^ 18 <= token_balance s t this ->
  exists s',
    execute s buyer (BuyToken t amount value Done) = (s', Success) /\
    ether_of s' (creator (details_at s t)) =
      ether_of s (creator (details_at s t)) + value /\
    token_balance s' t buyer = token_balance s t buyer + amount * 10 ^ 18.
Proof.
  intros Hsup Hpos Hv [Hv0 Hv1] Hown Hbal Hbuyer Hacc Hcre Hscale Hheld.
  destruct (execute_buy_plain s buyer t amount value)
    as (s2 & Hs2 & Hex); try done.
  exists (emit s2 (TokenTransferred t buyer amount)). split_and!; [done | |].
  - apply asset_transfer_inv in Hs2 as (_ & _ & _ & _ & _ & _ & Hs2).
    unfold ether_of at 1. simpl. rewrite Hs2.
    fold (ether_of (move_ether (move_ether s buyer this value) this
                      (creator (details_at s t)) value)
                   (creator (details_at s t))).
    rewrite ether_of_forwarded
      by first [done | by apply accepts_ether_not_this].
    rewrite decide_True by done. rewrite decide_False by done. lia.
  - change (token_balance s2 t buyer
            = token_balance s t buyer + amount * 10 ^ 18).
    rewrite (asset_transfer_balance _ _ _ _ _ _ buyer Hs2).
    rewrite decide_True by done. by rewrite decide_False by done.
Qed.

(** C3 (as amended): for a supported token and an amount > 0 whose cost
    price * amount fits a word, a paid value other than the cost makes the
    purchase fail with IncorrectPayment, and the state is the one before
    the call. *)
Theorem buy_incorrect_payment s buyer t amount value inner :
  supported (details_at s t) = true ->
  0 < amount ->
  price (details_at s t) * amount < uint256_limit ->
  value <> price (details_at s t) * amount ->
  value <= ether_of s buyer ->
  execute s buyer (BuyToken t amount value inner)
  = (s, Reverted IncorrectPayment).
Proof.
  intros Hsup Hpos Hfit Hne Hown.
  apply execute_revert. rewrite run_body_buy.
  destruct (Z.leb_spec value (ether_of s buyer)); [| lia]. simpl.
  unfold buyToken, supportedToken.
  change (details_at (move_ether s buyer this value) t) with (details_at s t).
  rewrite Hsup. simpl.
  destruct (Z.ltb_spec 0 amount); [| lia]. simpl.
  rewrite multiply_fits by done. simpl.
  by destruct (Z.eqb_spec value (price (details_at s t) * amount)).
Qed.

(** C4 (as amended): for a supported token and an amount > 0 whose cost
    price * amount leaves the word (the test on the wrapped product
    fails), the purchase fails with ArithmeticOverflow and the state is
    the one before the call; the scaling of the amount is guarded as well:
    with the cost paid exactly and taken by the creator, an amount whose
    amount * 10^18 leaves the word fails the same way. *)
Theorem buy_overflow s buyer t amount value inner :
  supported (details_at s t) = true ->
  is_uint256 (price (details_at s t)) ->
  0 < amount ->
  value <= ether_of s buyer ->
  (((price (details_at s t) * amount) mod uint256_limit) / amount
     <> price (details_at s t) ->
   execute s buyer (BuyToken t amount value inner)
   = (s, Reverted ArithmeticOverflow))
  /\
  (value = price (details_at s t) * amount ->
   value < uint256_limit ->
   0 <= ether_of s this ->
   buyer <> this ->
   accepts_ether (creator (details_at s t)) = true ->
   uint256_limit <= amount * 10 ^ 18 ->
   execute s buyer (BuyToken t amount value inner)
   = (s, Reverted ArithmeticOverflow)).
Proof.
  intros Hsup Hprice Hpos Hown. split.
  - intros Hwrap%wrapped_check_exact; [| done | done].
    apply execute_revert. rewrite run_body_buy.
    destruct (Z.leb_spec value (ether_of s buyer)); [| lia]. simpl.
    unfold buyToken, supportedToken.
    change (details_at (move_ether s buyer this value) t) with (details_at s t).
    rewrite Hsup. simpl.
    destruct (Z.ltb_spec 0 amount); [| lia]. simpl.
    by rewrite multiply_overflow.
  - intros Hv Hfit Hbal Hbuyer Hacc Hscale.
    apply execute_revert. rewrite run_body_buy.
    destruct (Z.leb_spec value (ether_of s buyer)); [| lia]. simpl.
    unfold buyToken, supportedToken.
    change (details_at (move_ether s buyer this value) t) with (details_at s t).
    rewrite Hsup. simpl.
    destruct (Z.ltb_spec 0 amount); [| lia]. simpl.
    rewrite multiply_fits by lia. simpl.
    rewrite <- Hv, Z.eqb_refl. simpl.
    unfold call_value. rewrite Hacc.
    assert (Hthis : ether_of (move_ether s buyer this value) this
                    = ether_of s this + value).
    { rewrite ether_of_move. repeat case_decide; congruence. }
    destruct (Z.leb_spec value (ether_of (move_ether s buyer this value) this));
      [| lia]. simpl.
    by rewrite checked_mul_overflow.
Qed.

(** ** Withdrawing *)

(** [onlyCreator] is the first check of a withdrawal. *)
Lemma widthdrawToken_not_creator s who t amount :
  who <> creator (details_at s t) ->
  widthdrawToken s who t amount = Revert Unauthorized.
Proof.
  intros Hne. unfold widthdrawToken, onlyCreator, supportedToken.
  by destruct (Z.eqb_spec who (creator (details_at s t))).
Qed.

(** C2: a caller other than the creator stored in the listing of the token
    gets Unauthorized from a withdrawal, and the state (balances and
    registry) is the one before the call; so no withdrawal of such a
    caller ever succeeds. *)
Theorem withdraw_unauthorized s who t amount :
  who <> creator (details_at s t) ->
  execute s who (WidthdrawToken t amount) = (s, Reverted Unauthorized) /\
  (forall s', execute s who (WidthdrawToken t amount) <> (s', Success)).
Proof.
  intros Hne.
  assert (H : execute s who (WidthdrawToken t amount)
              = (s, Reverted Unauthorized)).
  { apply execute_revert. simpl. by apply widthdrawToken_not_creator. }
  split; [done |]. intros s'. by rewrite H.
Qed.

(** C10: for a token without a listing, a caller other than the zero
    address gets Unauthorized from a withdrawal, not NotSupported: the
    creator is compared first, with the zero address an unset listing
    holds.  In a reachable state a withdrawal that ends in NotSupported
    was called by the zero address. *)
Theorem withdraw_unlisted s who t amount :
  reachable s ->
  (tokenDetails s !! t = None -> who <> zero_address ->
   execute s who (WidthdrawToken t amount) = (s, Reverted Unauthorized)) /\
  ((execute s who (WidthdrawToken t amount)).2 = Reverted NotSupported ->
   who = zero_address).
Proof.
  intros Hr. split.
  - intros Hnone Hwho. apply execute_revert. simpl.
    apply widthdrawToken_not_creator.
    unfold details_at. by rewrite Hnone.
  - unfold execute. simpl. unfold widthdrawToken, onlyCreator, supportedToken.
    destruct (Z.eqb_spec who (creator (details_at s t))) as [Heq | ]; [| done].
    simpl.
    destruct (supported (details_at s t)) eqn:Hsup; simpl.
    + destruct (0 <? amount); [| done]. simpl.
      destruct (asset_balanceOf s t this) as [b |] eqn:Hb; simpl.
      * destruct (amount <=? b); [| done]. simpl.
        unfold asset_transfer. unfold asset_balanceOf in Hb.
        destruct (assets s !! t); [| done].
        by destruct (_ <? _).
      * unfold asset_balanceOf in Hb.
        destruct (assets s !! t); [done |]. by injection Hb as <-.
    + intros _. apply reachable_unsupported in Hsup; [| done].
      rewrite Heq. unfold details_at. by rewrite Hsup.
Qed.

(** C8: for a supported token, a withdrawal of amount > 0 by the creator,
    with at least amount held by the contract, moves amount units, as they
    are, from the contract to the caller; a purchase of the same amount,
    paid exactly to a creator that is a plain account, with the scaled
    amount held, moves amount * 10^18 units to the buyer. *)
Theorem withdraw_raw_units s who t amount :
  supported (details_at s t) = true ->
  who = creator (details_at s t) ->
  who <> this ->
  0 < amount ->
  amount <= token_balance s t this ->
  (exists s',
     execute s who (WidthdrawToken t amount) = (s', Success) /\
     token_balance s' t who = token_balance s t who + amount /\
     token_balance s' t this = token_balance s t this - amount) /\
  (forall buyer value,
     buyer <> this ->
     value = price (details_at s t) * amount ->
     is_uint256 value ->
     value <= ether_of s buyer ->
     0 <= ether_of s this ->
     accepts_ether (creator (details_at s t)) = true ->
     amount * 10 ^ 18 < uint256_limit ->
     amount * 10 ^ 18 <= token_balance s t this ->
     exists sb,
       execute s buyer (BuyToken t amount value Done) = (sb, Success) /\
       token_balance sb t buyer = token_balance s t buyer + amount * 10 ^ 18 /\
       token_balance sb t this = token_balance s t this - amount * 10 ^ 18).
Proof.
  intros Hsup Hwho Hthis Hpos Hheld. split.
  - destruct (asset_transfer_enough s t this who amount) as [s1 Hs1];
      [done | done |].
    exists (emit s1 (TokenWidthdraw t who amount)). split_and!.
    + apply execute_ok. simpl.
      unfold widthdrawToken, onlyCreator, supportedToken.
      rewrite <- Hwho, Z.eqb_refl, Hsup. simpl.
      destruct (Z.ltb_spec 0 amount); [| lia]. simpl.
      unfold asset_balanceOf. unfold token_balance in Hheld.
      destruct (assets s !! t) as [a |] eqn:Ha; [| lia]. simpl.
      destruct (Z.leb_spec amount (holding a this)); [| lia]. simpl.
      by rewrite Hs1.
    + change (token_balance s1 t who = token_balance s t who + amount).
      rewrite (asset_transfer_balance _ _ _ _ _ _ who Hs1).
      rewrite decide_True by done. by rewrite decide_False by done.
    + change (token_balance s1 t this = token_balance s t this - amount).
      rewrite (asset_transfer_balance _ _ _ _ _ _ this Hs1).
      rewrite decide_False by done. by rewrite decide_True by done.
  - intros buyer value Hbuyer Hv [Hv0 Hv1] Hown Hbal Hacc Hscale Hscaled.
    destruct (execute_buy_plain s buyer t amount value)
      as (s2 & Hs2 & Hex); try done.
    exists (emit s2 (TokenTransferred t buyer amount)). split_and!; [done | |].
    + change (token_balance s2 t buyer
              = token_balance s t buyer + amount * 10 ^ 18).
      rewrite (asset_transfer_balance _ _ _ _ _ _ buyer Hs2).
      rewrite decide_True by done. by rewrite decide_False by done.
    + change (token_balance s2 t this
              = token_balance s t this - amount * 10 ^ 18).
      rewrite (asset_transfer_balance _ _ _ _ _ _ this Hs2).
      rewrite decide_False by done. by rewrite decide_True by done.
Qed.

(** ** The registry *)

Lemma execute_index s who c :
  allSupportedTokens s `prefix_of` allSupportedTokens (execute s who c).1.
Proof.
  refine (proj1 (preserved (fun _ => true)
                   (fun s s' => allSupportedTokens s
                                `prefix_of` allSupportedTokens s')
                   _ _ _ _ _ _)
                c (proj1 registrations_in_any c) s who); try done.
  - intros s1 s2 s3 H1 H2. by etrans.
  - intros s0 tok from to amount s' H.
    apply asset_transfer_inv in H as (_ & _ & _ & H & _). by rewrite H.
  - intros s0 w t p s' _ H.
    apply createICOSale_inv in H as (a & _ & _ & H & _).
    rewrite H. by apply prefix_app_r.
Qed.


Lemma occurrences_app t ids ids' :
  occurrences t (ids ++ ids') = (occurrences t ids + occurrences t ids')%nat.
Proof. unfold occurrences. by rewrite filter_app, length_app. Qed.

Lemma occurrences_elem t ids :
  t ∈ ids -> (1 <= occurrences t ids)%nat.
Proof.
  unfold occurrences. induction 1 as [t ids | t t' ids _ IH].
  - rewrite filter_cons_True by done. simpl. lia.
  - rewrite filter_cons. case_decide; simpl; lia.
Qed.

(** C5: registering again a token that is registered, with price p' by
    caller c', succeeds when the asset answers with its name and symbol;
    the listing of the token then has price p', creator c' and the name
    and symbol just read, the other listings are as before, and the index
    has one more entry for the token, which it now holds at least twice. *)
Theorem reregister_overwrites s t p' c' a :
  reachable s ->
  supported (details_at s t) = true ->
  assets s !! t = Some a ->
  exists s',
    execute s c' (CreateICOSale t p') = (s', Success) /\
    details_at s' t =
      {| token := t; supported := true; price := p'; creator := c';
         name := asset_name a; symbol := asset_symbol a |} /\
    (forall t', t' <> t -> details_at s' t' = details_at s t') /\
    allSupportedTokens s' = allSupportedTokens s ++ [t] /\
    (2 <= occurrences t (allSupportedTokens s'))%nat.
Proof.
  intros Hr Hsup Ha.
  destruct (reachable_supported s t Hr Hsup) as [_ Hin].
  eexists. split_and!.
  - apply execute_ok. simpl. unfold createICOSale, asset_metadata.
    rewrite Ha. simpl. reflexivity.
  - unfold details_at. simpl. by rewrite lookup_insert_eq.
  - intros t' Hne. unfold details_at. simpl. by rewrite lookup_insert_ne.
  - reflexivity.
  - simpl. rewrite occurrences_app.
    apply occurrences_elem in Hin.
    assert (occurrences t [t] = 1%nat) as ->; [| lia].
    unfold occurrences. by rewrite filter_cons_True.
Qed.



(** ** Enumeration by creator *)

(** ** Enumeration by creator *)

Lemma created_by_cons reg c t ids :
  created_by reg c (t :: ids) =
    if creator (default zero_details (reg !! t)) =? c
    then default zero_details (reg !! t) :: created_by reg c ids
    else created_by reg c ids.
Proof.
  unfold created_by. rewrite filter_cons.
  destruct (Z.eqb_spec (creator (default zero_details (reg !! t))) c);
    by case_decide.
Qed.

Lemma count_created_by_spec reg c ids count :
  count_created_by reg c ids count = (count + length (created_by reg c ids))%nat.
Proof.
  revert count. induction ids as [| t ids IH]; intros count; simpl.
  - unfold created_by. simpl. lia.
  - rewrite created_by_cons.
    destruct (_ =? _); rewrite IH; simpl; lia.
Qed.

(** The second loop, started on a result whose first [length filled]
    cells are written and whose [room] others are blank, writes the
    matching listings after the written cells. *)
Lemma fill_created_by_spec reg c ids filled room :
  (length (created_by reg c ids) <= room)%nat ->
  fill_created_by reg c ids (filled ++ replicate room zero_details) (length filled)
  = Ok (filled ++ created_by reg c ids
          ++ replicate (room - length (created_by reg c ids)) zero_details).
Proof.
  revert filled room.
  induction ids as [| t ids IH]; intros filled room Hroom; simpl.
  - unfold created_by. simpl. by rewrite Nat.sub_0_r.
  - rewrite created_by_cons in *.
    destruct (_ =? _); [| by apply IH].
    simpl in Hroom. destruct room as [| room]; [lia |].
    unfold store. rewrite length_app, length_replicate.
    destruct (Nat.ltb_spec (length filled) (length filled + S room)); [| lia].
    simpl.
    replace (<[length filled := default zero_details (reg !! t)]>
               (filled ++ zero_details :: replicate room zero_details))
      with ((filled ++ [default zero_details (reg !! t)])
              ++ replicate room zero_details).
    2:{ rewrite insert_app_r_alt by lia. rewrite Nat.sub_diag.
        simpl. by rewrite <- app_assoc. }
    replace (S (length filled))
      with (length (filled ++ [default zero_details (reg !! t)])).
    2:{ rewrite length_app. simpl. lia. }
    rewrite IH by lia. by rewrite <- app_assoc.
Qed.

Lemma single_pass_spec s c ids acc :
  foldl (fun acc t =>
           if creator (details_at s t) =? c
           then acc ++ [details_at s t] else acc) acc ids
  = acc ++ created_by (tokenDetails s) c ids.
Proof.
  revert acc. induction ids as [| t ids IH]; intros acc; simpl.
  - unfold created_by. simpl. by rewrite app_nil_r.
  - rewrite created_by_cons, IH. unfold details_at.
    destruct (_ =? _); [| done]. by rewrite <- app_assoc.
Qed.

(** C9: the enumeration by creator in two passes (count the matches,
    allocate, fill) returns, for every state and creator, the sequence
    of listings that one pass appending each match to a growing result
    returns: the listings of the index entries with that creator, in the
    order of the index. *)
Theorem getTokenCreatedBy_single_pass s _creator :
  getTokenCreatedBy s _creator = Ok (listingsByCreator_single_pass s _creator) /\
  listingsByCreator_single_pass s _creator =
    map (details_at s)
        (filter (fun t => creator (details_at s t) = _creator)
                (allSupportedTokens s)).
Proof.
  unfold getTokenCreatedBy, listingsByCreator_single_pass.
  rewrite count_created_by_spec, single_pass_spec. simpl. split; [| done].
  pose proof (fill_created_by_spec (tokenDetails s) _creator
                (allSupportedTokens s) []
                (length (created_by (tokenDetails s) _creator
                           (allSupportedTokens s)))) as H.
  simpl in H. rewrite H by lia.
  rewrite Nat.sub_diag. simpl. by rewrite app_nil_r.
Qed.

(** ** More about the guards and the views *)

(** X1: [multiply] returns the true product or reverts: with [y] a word it
    returns [z] exactly when [z] is [x * y] and fits a word; in particular
    [multiply x 0] is 0, and no wrapped product is ever returned. *)
Theorem multiply_exact x y z :
  0 <= y ->
  multiply x y = Ok z <-> z = x * y /\ x * y < uint256_limit.
Proof. apply multiply_spec. Qed.

(** ** When a purchase and a withdrawal complete *)

(** X2: A purchase called by an account other than the contract completes
    exactly when the caller owns the value it attaches, the token is
    supported, the amount is positive, the value is the cost
    price * amount and fits a word, the creator takes the payment, and the
    scaled amount fits a word and is held by the contract at the moment
    the creator's code returns (whatever that code did in between). *)
Theorem buy_succeeds_iff s buyer t amount value inner :
  buyer <> this ->
  0 <= ether_of s this ->
  (execute s buyer (BuyToken t amount value inner)).2 = Success <->
  value <= ether_of s buyer /\
  supported (details_at s t) = true /\
  0 < amount /\
  value = price (details_at s t) * amount /\
  value < uint256_limit /\
  accepts_ether (creator (details_at s t)) = true /\
  amount * 10 ^ 18 < uint256_limit /\
  amount * 10 ^ 18
    <= token_balance (after_creator_code s buyer t value inner) t this.
Proof.
  intros Hbuyer Hbal.
  assert (Hthis : ether_of (move_ether s buyer this value) this
                  = ether_of s this + value).
  { rewrite ether_of_move. repeat case_decide; congruence. }
  unfold execute. rewrite run_body_buy. split.
  - destruct (Z.leb_spec value (ether_of s buyer)) as [Hown |]; [| done]. simpl.
    destruct (buyToken _ _ _ _ _ _) as [s' |] eqn:H; [| done]. intros _.
    apply buyToken_inv in H
      as (Hsup & Hpos & Hv & Hfit & _ & Hacc & Hscale & s2 & Hs2 & _).
    apply asset_transfer_inv in Hs2 as (Hheld & _).
    by split_and!.
  - intros (Hown & Hsup & Hpos & Hv & Hfit & Hacc & Hscale & Hheld).
    destruct (Z.leb_spec value (ether_of s buyer)); [| lia]. simpl.
    destruct (buyToken_runs (fun st => run_script st inner)
                (move_ether s buyer this value) buyer value t amount)
      as (s2 & _ & ->); try done. lia.
Qed.

(** X3: A withdrawal completes exactly when the caller is the creator of the
    listing, the token is supported, the amount is positive and the
    contract holds that much of the token. *)
Theorem withdraw_succeeds_iff s who t amount :
  (execute s who (WidthdrawToken t amount)).2 = Success <->
  who = creator (details_at s t) /\
  supported (details_at s t) = true /\
  0 < amount /\
  amount <= token_balance s t this.
Proof.
  unfold execute. simpl. split.
  - destruct (widthdrawToken s who t amount) as [s' |] eqn:H; [| done].
    intros _. apply widthdrawToken_inv in H as (? & ? & ? & ? & _). done.
  - intros (Hwho & Hsup & Hpos & Hheld).
    destruct (asset_transfer_enough s t this who amount) as [s1 Hs1];
      [done | done |].
    unfold widthdrawToken, onlyCreator, supportedToken.
    rewrite <- Hwho, Z.eqb_refl, Hsup. simpl.
    destruct (Z.ltb_spec 0 amount); [| lia]. simpl.
    unfold asset_balanceOf. unfold token_balance in Hheld.
    destruct (assets s !! t) as [a |] eqn:Ha; [| lia]. simpl.
    destruct (Z.leb_spec amount (holding a this)); [| lia]. simpl.
    by rewrite Hs1.
Qed.

(** ** Rejections *)

(** X4: A purchase of a token that is not supported is rejected with
    NotSupported before anything else is looked at, whatever the amount and
    the value. *)
Theorem buy_unsupported s buyer t amount value inner :
  supported (details_at s t) = false ->
  value <= ether_of s buyer ->
  execute s buyer (BuyToken t amount value inner) = (s, Reverted NotSupported).
Proof.
  intros Hsup Hown. apply execute_revert. rewrite run_body_buy.
  destruct (Z.leb_spec value (ether_of s buyer)); [| lia]. simpl.
  unfold buyToken, supportedToken.
  change (details_at (move_ether s buyer this value) t) with (details_at s t).
  by rewrite Hsup.
Qed.

(** X5: An amount of 0 is rejected with InvalidAmount, in a purchase of a
    supported token whatever the value attached, and in a withdrawal by the
    creator whatever the contract holds. *)
Theorem zero_amount_rejected s who t value inner :
  supported (details_at s t) = true ->
  (value <= ether_of s who ->
   execute s who (BuyToken t 0 value inner) = (s, Reverted InvalidAmount)) /\
  (who = creator (details_at s t) ->
   execute s who (WidthdrawToken t 0) = (s, Reverted InvalidAmount)).
Proof.
  intros Hsup. split.
  - intros Hown. apply execute_revert. rewrite run_body_buy.
    destruct (Z.leb_spec value (ether_of s who)); [| lia]. simpl.
    unfold buyToken, supportedToken.
    change (details_at (move_ether s who this value) t) with (details_at s t).
    by rewrite Hsup.
  - intros Hwho. apply execute_revert. simpl.
    unfold widthdrawToken, onlyCreator, supportedToken.
    by rewrite <- Hwho, Z.eqb_refl, Hsup.
Qed.

(** X6: A purchase whose cost is paid exactly is rejected with
    PaymentForwardingFailed when the creator of the listing does not take
    the payment, and nothing has moved. *)
Theorem buy_forwarding_failed s buyer t amount value inner :
  supported (details_at s t) = true ->
  0 < amount ->
  value = price (details_at s t) * amount ->
  value < uint256_limit ->
  value <= ether_of s buyer ->
  accepts_ether (creator (details_at s t)) = false ->
  execute s buyer (BuyToken t amount value inner)
  = (s, Reverted PaymentForwardingFailed).
Proof.
  intros Hsup Hpos Hv Hfit Hown Hacc. apply execute_revert. rewrite run_body_buy.
  destruct (Z.leb_spec value (ether_of s buyer)); [| lia]. simpl.
  unfold buyToken, supportedToken.
  change (details_at (move_ether s buyer this value) t) with (details_at s t).
  rewrite Hsup. simpl.
  destruct (Z.ltb_spec 0 amount); [| lia]. simpl.
  rewrite multiply_fits by lia. simpl.
  rewrite <- Hv, Z.eqb_refl. simpl.
  unfold call_value. rewrite Hacc. by rewrite andb_false_r.
Qed.

(** X7: [getBalance] of a supported token is what the contract holds of it, and
    a withdrawal by the creator of more than [getBalance] returns is
    rejected with InsufficientBalance. *)
Theorem withdraw_more_than_held s who t amount b :
  who = creator (details_at s t) ->
  0 < amount ->
  getBalance s t = Ok b ->
  b < amount ->
  b = token_balance s t this /\
  execute s who (WidthdrawToken t amount) = (s, Reverted InsufficientBalance).
Proof.
  intros Hwho Hpos Hb Hlt. unfold getBalance in Hb.
  split_bind Hb. apply require_inv in Hx.
  unfold asset_balanceOf in Hb. unfold token_balance.
  destruct (assets s !! t) as [a |] eqn:Ha; [| done].
  injection Hb as <-. split; [done |].
  apply execute_revert. simpl.
  unfold widthdrawToken, onlyCreator, supportedToken.
  rewrite <- Hwho, Z.eqb_refl, Hx. simpl.
  destruct (Z.ltb_spec 0 amount); [| lia]. simpl.
  unfold asset_balanceOf. rewrite Ha. simpl.
  by destruct (Z.leb_spec amount (holding a this)); [lia |].
Qed.

(** ** Where currency and tokens go *)


(** No call, whatever runs inside it, and no script changes what the
    contract owns of native currency. *)
Lemma ether_this_call_script :
  (forall c s who, who <> this ->
     ether_of (execute s who c).1 this = ether_of s this) /\
  (forall k s, ether_of (run_script s k) this = ether_of s this).
Proof.
  apply Call_Script_ind.
  - intros t p s who _. unfold execute. simpl.
    destruct (createICOSale s who t p) as [s' |] eqn:H; [| done].
    unfold createICOSale, asset_metadata in H.
    destruct (assets s !! t); [| done]. by injection H as <-.
  - intros t amount v inner IH s who Hwho. unfold execute.
    destruct (run_body s who (BuyToken t amount v inner)) as [s' |] eqn:H;
      [| done].
    apply run_body_buy_inv in H as [_ H].
    apply buyToken_inv in H as (_ & _ & _ & _ & _ & Hacc & _ & s2 & Hs2 & ->).
    apply asset_transfer_inv in Hs2 as (_ & _ & _ & _ & _ & _ & Hs2).
    change (details_at (move_ether s who this v) t) with (details_at s t) in *.
    unfold ether_of at 1. simpl. rewrite Hs2.
    fold (ether_of (run_script
                      (move_ether (move_ether s who this v) this
                         (creator (details_at s t)) v) inner) this).
    rewrite IH.
    rewrite ether_of_forwarded by first [done | by apply accepts_ether_not_this].
    apply accepts_ether_not_this in Hacc.
    rewrite decide_False by done. rewrite decide_False by done. lia.
  - intros t amount s who _. unfold execute. simpl.
    destruct (widthdrawToken s who t amount) as [s' |] eqn:H; [| done].
    apply widthdrawToken_inv in H as (_ & _ & _ & _ & s1 & Hs1 & ->).
    apply asset_transfer_inv in Hs1 as (_ & _ & _ & _ & _ & _ & Hs1).
    unfold ether_of. simpl. by rewrite Hs1.
  - intros v s who _. unfold execute. simpl.
    by destruct (v <=? ether_of s who).
  - done.
  - intros who c IHc rest IHrest s. rewrite run_script_invoke, IHrest.
    destruct (bool_decide (who <> this)) eqn:Hwho; [| done].
    apply IHc. by apply bool_decide_eq_true in Hwho.
  - intros from to v rest IH s. rewrite run_script_pay, IH.
    unfold pay. destruct (_ && _) eqn:Hc; [| done].
    apply andb_true_iff in Hc as [Hc Hto].
    apply andb_true_iff in Hc as [Hc _].
    apply andb_true_iff in Hc as [Hfrom _].
    apply bool_decide_eq_true in Hfrom.
    apply accepts_ether_not_this in Hto.
    rewrite ether_of_move.
    rewrite decide_False by done. by rewrite decide_False by done.
  - intros tok from to amount rest IH s. rewrite run_script_give, IH.
    unfold give. destruct (_ && _); [| done].
    destruct (asset_transfer s tok from to amount) as [s' |] eqn:H; [| done].
    apply asset_transfer_inv in H as (_ & _ & _ & _ & _ & _ & H).
    unfold ether_of. by rewrite H.
Qed.

Lemma execute_ether_this s who c :
  who <> this -> ether_of (execute s who c).1 this = ether_of s this.
Proof. apply ether_this_call_script. Qed.

(** X9: The contract keeps no native currency: through every sequence of calls
    made by other accounts its own balance stays what it was. *)
Theorem contract_keeps_no_ether s calls :
  forallb (fun '(who, _) => negb (bool_decide (who = this))) calls = true ->
  ether_of (execute_all s calls) this = ether_of s this.
Proof.
  revert s. induction calls as [| [who c] calls IH]; intros s H; [done |].
  simpl in H. apply andb_true_iff in H as [Hwho H].
  apply negb_true_iff, bool_decide_eq_false in Hwho.
  unfold execute_all. simpl. fold (execute_all (execute s who c).1 calls).
  rewrite IH by done. by apply execute_ether_this.
Qed.


(** ** Registration and the views *)

(** X11: Registering a token whose asset answers completes; [getTokenDetails]
    then returns the listing just written (supported, with the price, the
    caller as creator, the name and symbol read), the index has the token
    appended, and no currency and no token has moved. *)
Theorem register_then_lookup s who t p a :
  assets s !! t = Some a ->
  exists s',
    execute s who (CreateICOSale t p) = (s', Success) /\
    getTokenDetails s' t =
      Ok {| token := t; supported := true; price := p; creator := who;
            name := asset_name a; symbol := asset_symbol a |} /\
    getSupportedTokens s' = getSupportedTokens s ++ [t] /\
    ether s' = ether s /\ assets s' = assets s.
Proof.
  intros Ha. eexists. split_and!.
  - apply execute_ok. simpl. unfold createICOSale, asset_metadata.
    rewrite Ha. simpl. reflexivity.
  - unfold getTokenDetails, details_at. simpl. by rewrite lookup_insert_eq.
  - reflexivity.
  - reflexivity.
  - reflexivity.
Qed.

(** X12: Registering an address where no asset lives is rejected, and nothing is
    written. *)
Theorem register_non_asset s who t p :
  assets s !! t = None ->
  execute s who (CreateICOSale t p) = (s, Reverted ExternalCallFailed).
Proof.
  intros Ha. apply execute_revert. simpl.
  unfold createICOSale, asset_metadata. by rewrite Ha.
Qed.

(** X13: In every reachable state a token is in the index exactly when it is
    supported. *)
Theorem index_iff_supported s t :
  reachable s ->
  t ∈ getSupportedTokens s <-> supported (details_at s t) = true.
Proof.
  intros Hr. split.
  - intros Ht. destruct (reachable_index_wf s Hr t Ht) as [d Hd].
    unfold details_at. rewrite Hd. simpl.
    by destruct (reachable_listing_wf s Hr t d Hd).
  - intros Hsup. by destruct (reachable_supported s t Hr Hsup).
Qed.

(** X14: In every reachable state [getTokenDetails] returns the stored listing of
    a token that has one, which carries that token as its identifier, and
    is rejected with NotSupported for a token that has none. *)
Theorem getTokenDetails_reachable s t :
  reachable s ->
  match tokenDetails s !! t with
  | Some d => getTokenDetails s t = Ok d /\ token d = t
  | None => getTokenDetails s t = Revert NotSupported
  end.
Proof.
  intros Hr%reachable_listing_wf. unfold getTokenDetails, details_at.
  destruct (tokenDetails s !! t) as [d |] eqn:Hd; [| done].
  destruct (Hr t d Hd) as (Hsup & Htok & _). simpl. by rewrite Hsup.
Qed.

Lemma execute_supported s who c t :
  supported (details_at s t) = true ->
  supported (details_at (execute s who c).1 t) = true.
Proof.
  refine (proj1 (preserved (fun _ => true)
                   (fun s s' => supported (details_at s t) = true ->
                                supported (details_at s' t) = true)
                   _ _ _ _ _ _)
                c (proj1 registrations_in_any c) s who); try done.
  - intros s1 s2 s3 H1 H2 H. by apply H2, H1.
  - intros s0 tok from to amount s' H.
    apply asset_transfer_inv in H as (_ & _ & H & _).
    by rewrite (details_at_registry _ _ _ H).
  - intros s0 w t' p s' _ H Hsup.
    apply createICOSale_inv in H as (a & _ & Hs' & _).
    unfold details_at in *. rewrite Hs'.
    destruct (decide (t' = t)) as [-> | Hne].
    + by rewrite lookup_insert_eq.
    + by rewrite lookup_insert_ne.
Qed.

(** X15: A token that is supported stays supported through every sequence of
    calls: nothing removes a listing. *)
Theorem supported_forever s calls t :
  supported (details_at s t) = true ->
  supported (details_at (execute_all s calls) t) = true.
Proof.
  revert s. induction calls as [| [who c] calls IH]; intros s H; [done |].
  unfold execute_all. simpl. fold (execute_all (execute s who c).1 calls).
  by apply IH, execute_supported.
Qed.

(** X16: The index only grows at its end: through every sequence of calls the
    index of before is a prefix of the index of after. *)
Theorem index_grows s calls :
  getSupportedTokens s `prefix_of` getSupportedTokens (execute_all s calls).
Proof.
  unfold getSupportedTokens.
  revert s. induction calls as [| [who c] calls IH]; intros s; [done |].
  unfold execute_all. simpl. fold (execute_all (execute s who c).1 calls).
  etrans; [apply (execute_index s who c) | apply IH].
Qed.

(** ** The enumerations *)

(** ** The enumerations *)

Lemma fill_all_spec reg ids filled :
  fill_all reg ids (filled ++ replicate (length ids) zero_details) (length filled)
  = Ok (filled ++ map (fun t => default zero_details (reg !! t)) ids).
Proof.
  revert filled. induction ids as [| t ids IH]; intros filled; simpl.
  - by rewrite !app_nil_r.
  - unfold store. rewrite length_app. simpl. rewrite length_replicate.
    destruct (Nat.ltb_spec (length filled) (length filled + S (length ids)));
      [| lia]. simpl.
    rewrite insert_app_r_alt by lia. rewrite Nat.sub_diag. simpl.
    replace (filled ++ default zero_details (reg !! t)
               :: replicate (length ids) zero_details)
      with ((filled ++ [default zero_details (reg !! t)])
              ++ replicate (length ids) zero_details)
      by (by rewrite <- app_assoc).
    replace (S (length filled))
      with (length (filled ++ [default zero_details (reg !! t)]))
      by (rewrite length_app; simpl; lia).
    rewrite IH. by rewrite <- app_assoc.
Qed.

(** X17: [getAllTokens] (allocate as many cells as the index has entries, then
    write entry by entry) never writes out of bounds and returns the
    listing of each entry of the index, in the order of the index,
    duplicates included. *)
Theorem getAllTokens_listings s :
  getAllTokens s = Ok (map (details_at s) (getSupportedTokens s)).
Proof.
  unfold getAllTokens, getSupportedTokens.
  apply (fill_all_spec (tokenDetails s) (allSupportedTokens s) []).
Qed.

(** X18: In every reachable state the listings [getAllTokens] returns are all
    supported, and their token identifiers are the index itself. *)
Theorem getAllTokens_reachable s :
  reachable s ->
  exists ds,
    getAllTokens s = Ok ds /\
    map token ds = getSupportedTokens s /\
    Forall (fun d => supported d = true) ds.
Proof.
  intros Hr. exists (map (details_at s) (allSupportedTokens s)).
  split; [apply (fill_all_spec (tokenDetails s) (allSupportedTokens s) []) |].
  pose proof (reachable_index_wf s Hr) as Hidx.
  pose proof (reachable_listing_wf s Hr) as Hwf.
  unfold getSupportedTokens, index_wf in *.
  induction (allSupportedTokens s) as [| t ids IH]; [done |].
  destruct (Hidx t) as [d Hd]; [apply elem_of_cons; by left |].
  destruct (Hwf t d Hd) as (Hsup & Htok & _).
  destruct IH as [IH1 IH2].
  { intros t' Ht'. apply Hidx, elem_of_cons. by right. }
  simpl. unfold details_at at 1 3. rewrite Hd. simpl. rewrite Htok, IH1.
  split; [done |]. by constructor.
Qed.

Lemma getTokenCreatedBy_created_by s c :
  getTokenCreatedBy s c
  = Ok (created_by (tokenDetails s) c (allSupportedTokens s)).
Proof.
  unfold getTokenCreatedBy. rewrite count_created_by_spec. simpl.
  pose proof (fill_created_by_spec (tokenDetails s) c (allSupportedTokens s) []
                (length (created_by (tokenDetails s) c (allSupportedTokens s))))
    as H.
  simpl in H. rewrite H by lia.
  rewrite Nat.sub_diag. simpl. by rewrite app_nil_r.
Qed.

Lemma created_by_Forall reg c ids (Q : TokenDetails -> Prop) :
  (forall t, t ∈ ids -> creator (default zero_details (reg !! t)) = c ->
             Q (default zero_details (reg !! t))) ->
  Forall Q (created_by reg c ids).
Proof.
  induction ids as [| t ids IH]; intros HQ.
  - unfold created_by. simpl. constructor.
  - rewrite created_by_cons.
    assert (Hrest : Forall Q (created_by reg c ids)).
    { apply IH. intros t' Ht'. apply HQ, elem_of_cons. by right. }
    destruct (Z.eqb_spec (creator (default zero_details (reg !! t))) c);
      [| done].
    constructor; [| done]. apply HQ; [apply elem_of_cons; by left | done].
Qed.

Lemma created_by_length reg c ids :
  (length (created_by reg c ids) <= length ids)%nat.
Proof.
  induction ids as [| t ids IH]; [done |].
  rewrite created_by_cons. destruct (_ =? _); simpl; lia.
Qed.

(** X19: In every reachable state each listing [getTokenCreatedBy] returns has
    the creator asked for, is supported and is the listing of a token of
    the index; there are no more of them than entries in the index. *)
Theorem getTokenCreatedBy_sound s c :
  reachable s ->
  exists ds,
    getTokenCreatedBy s c = Ok ds /\
    Forall (fun d => creator d = c /\ supported d = true /\
                     token d ∈ getSupportedTokens s) ds /\
    (length ds <= length (getSupportedTokens s))%nat.
Proof.
  intros Hr. eexists. split; [apply getTokenCreatedBy_created_by |].
  split; [| apply created_by_length].
  apply created_by_Forall. intros t Ht Hc.
  destruct (reachable_index_wf s Hr t Ht) as [d Hd].
  destruct (reachable_listing_wf s Hr t d Hd) as (Hsup & Htok & _).
  rewrite Hd in *. simpl in *. rewrite Htok. done.
Qed.

Lemma created_by_occurrences reg c ids t :
  creator (default zero_details (reg !! t)) = c ->
  token (default zero_details (reg !! t)) = t ->
  (occurrences t ids
   <= length (filter (fun d => token d = t) (created_by reg c ids)))%nat.
Proof.
  intros Hc Htok. unfold occurrences.
  induction ids as [| t' ids IH]; [done |].
  rewrite created_by_cons, filter_cons.
  destruct (decide (t' = t)) as [-> | Hne].
  - rewrite Hc, Z.eqb_refl. rewrite filter_cons_True by done. simpl. lia.
  - destruct (_ =? _); [| done].
    rewrite filter_cons. case_decide; simpl; lia.
Qed.

(** X20: After a token registered by one creator is registered again by
    another, [getTokenCreatedBy] returns its listing at least twice for the
    new creator, and not at all for any other creator, the first one
    included. *)
Theorem reregistered_enumeration s t p' c' a :
  reachable s ->
  supported (details_at s t) = true ->
  assets s !! t = Some a ->
  (exists ds,
     getTokenCreatedBy (execute s c' (CreateICOSale t p')).1 c' = Ok ds /\
     (2 <= length (filter (fun d => token d = t) ds))%nat) /\
  (forall c, c <> c' ->
     exists ds,
       getTokenCreatedBy (execute s c' (CreateICOSale t p')).1 c = Ok ds /\
       Forall (fun d => token d <> t) ds).
Proof.
  intros Hr Hsup Ha.
  destruct (reachable_supported s t Hr Hsup) as [_ Hin].
  assert (Hex : exists s1,
             execute s c' (CreateICOSale t p') = (s1, Success) /\
             createICOSale s c' t p' = Ok s1).
  { unfold execute. simpl. unfold createICOSale, asset_metadata.
    rewrite Ha. simpl. eauto. }
  destruct Hex as (s1 & -> & Hs1). simpl.
  apply createICOSale_inv in Hs1 as (a' & Ha' & Hreg & Hidx & _).
  rewrite Ha in Ha'. injection Ha' as <-.
  split.
  - eexists. split; [apply getTokenCreatedBy_created_by |].
    rewrite Hreg, Hidx.
    etrans; [| apply created_by_occurrences];
      [| by rewrite lookup_insert_eq | by rewrite lookup_insert_eq].
    rewrite occurrences_app. apply occurrences_elem in Hin.
    assert (occurrences t [t] = 1%nat) as ->; [| lia].
    unfold occurrences. by rewrite filter_cons_True.
  - intros c Hc. eexists. split; [apply getTokenCreatedBy_created_by |].
    apply created_by_Forall. rewrite Hreg, Hidx. intros t0 Ht0.
    destruct (decide (t0 = t)) as [-> | Hne].
    + rewrite lookup_insert_eq. simpl. congruence.
    + rewrite lookup_insert_ne by done. intros _.
      apply elem_of_app in Ht0 as [Ht0 | Ht0];
        [| by apply list_elem_of_singleton in Ht0].
      destruct (reachable_index_wf s Hr t0 Ht0) as [d Hd].
      destruct (reachable_listing_wf s Hr t0 d Hd) as (_ & Htok & _).
      rewrite Hd. simpl. congruence.
Qed.

(** ** The log and the owner *)



Lemma execute_owner s who c : owner (execute s who c).1 = owner s.
Proof.
  refine (proj1 (preserved (fun _ => true)
                   (fun s s' => owner s' = owner s) _ _ _ _ _ _)
                c (proj1 registrations_in_any c) s who); try done.
  - intros s1 s2 s3 H1 H2. by rewrite H2.
  - intros s0 tok from to amount s' H.
    by apply asset_transfer_inv in H as (_ & _ & _ & _ & ? & _).
  - intros s0 w t p s' _ H.
    by apply createICOSale_inv in H as (a & _ & _ & _ & ? & _).
Qed.

(** X22: The owner is the deployer for good: no call changes it, whoever makes
    it, the owner included. *)
Theorem owner_fixed deployer_ e m calls :
  owner (execute_all (constructor deployer_ e m) calls) = deployer_.
Proof.
  change deployer_ with (owner (constructor deployer_ e m)) at 2.
  generalize (constructor deployer_ e m). intros s.
  revert s. induction calls as [| [who c] calls IH]; intros s; [done |].
  unfold execute_all. simpl. fold (execute_all (execute s who c).1 calls).
  rewrite IH. apply execute_owner.
Qed.

End Marketplace.

(** * A concrete market

    Token A (asset "Alpha"), of which the contract holds 5 * 10^18 units,
    creator X, buyer Y with 1000 units of native currency; every account
    but the contract takes plain transfers. *)

Definition engine : address := 1000.
Definition tokenA : address := 1.
Definition creatorX : address := 2.
Definition buyerY : address := 3.
Definition deployer : address := 9.

Definition everyone (a : address) : bool := true.

Definition alpha : Asset :=
  {| asset_name := "Alpha"; asset_symbol := "ALP";
     balances := {[ engine := 5 * 10 ^ 18 ]} |}.

Definition deployed : State :=
  constructor deployer {[ buyerY := 1000 ]} {[ tokenA := alpha ]}.

(** A listed at price 100 by X. *)
Definition listed : State :=
  (execute engine everyone deployed creatorX (CreateICOSale tokenA 100)).1.

(** A listed at price 2^255 by X. *)
Definition listed_dear : State :=
  (execute engine everyone deployed creatorX (CreateICOSale tokenA (2 ^ 255))).1.

(** A listed at price 0 by X. *)
Definition listed_free : State :=
  (execute engine everyone deployed creatorX (CreateICOSale tokenA 0)).1.

Ltac evaluate :=
  vm_compute; repeat split; first [reflexivity | by intros ?].

Example scenario_buy_3_for_300 :
  let '(s', outcome) := execute engine everyone listed buyerY (BuyToken tokenA 3 300 Done) in
  outcome = Success /\
  ether_of s' creatorX = 300 /\ ether_of s' buyerY = 700 /\
  token_balance s' tokenA buyerY = 3 * 10 ^ 18 /\
  token_balance s' tokenA engine = 2 * 10 ^ 18.
Proof. evaluate. Qed.

Example scenario_buy_3_for_299 :
  execute engine everyone listed buyerY (BuyToken tokenA 3 299 Done)
  = (listed, Reverted IncorrectPayment).
Proof. evaluate. Qed.

Example scenario_withdraw_too_much :
  execute engine everyone listed creatorX (WidthdrawToken tokenA (6 * 10 ^ 18))
  = (listed, Reverted InsufficientBalance).
Proof. evaluate. Qed.

Example scenario_direct_payment :
  execute engine everyone listed buyerY (DirectPayment 5)
  = (listed, Reverted DirectPaymentRejected).
Proof. evaluate. Qed.

(** X, owning 1000, buys 3 units of its own token: the 300 it pays come
    back to it. *)
Example scenario_creator_buys :
  let s0 := constructor deployer {[ creatorX := 1000 ]} {[ tokenA := alpha ]} in
  let s1 := (execute engine everyone s0 creatorX (CreateICOSale tokenA 100)).1 in
  let '(s', outcome) := execute engine everyone s1 creatorX (BuyToken tokenA 3 300 Done) in
  outcome = Success /\ ether_of s' creatorX = ether_of s1 creatorX.
Proof. evaluate. Qed.

Lemma reachable_listed : reachable engine everyone listed.
Proof. apply reachable_call, reachable_deploy. Qed.

(** ** C1 *)

(** The contract holds 5 * 10^18 units of A; a purchase of 6, paid exactly
    600, is turned down by the asset. *)
Lemma buy_exact_payment_counterexample :
  supported (details_at listed tokenA) = true /\
  price (details_at listed tokenA) = 100 /\
  0 < 6 /\ 600 = 100 * 6 /\
  execute engine everyone listed buyerY (BuyToken tokenA 6 600 Done)
  = (listed, Reverted TransferFailed).
Proof. evaluate. Qed.

Lemma buy_exact_payment_witness :
  exists s',
    execute engine everyone listed buyerY (BuyToken tokenA 3 300 Done) = (s', Success) /\
    ether_of s' (creator (details_at listed tokenA)) =
      ether_of listed (creator (details_at listed tokenA)) + 300 /\
    token_balance s' tokenA buyerY =
      token_balance listed tokenA buyerY + 3 * 10 ^ 18.
Proof.
  apply (buy_exact_payment engine everyone listed buyerY tokenA 3 300); evaluate.
Defined.

(** ** C2 *)

Lemma withdraw_unauthorized_witness :
  execute engine everyone listed buyerY (WidthdrawToken tokenA 1)
  = (listed, Reverted Unauthorized) /\
  (forall s', execute engine everyone listed buyerY (WidthdrawToken tokenA 1)
              <> (s', Success)).
Proof.
  apply (withdraw_unauthorized engine everyone listed buyerY tokenA 1). evaluate.
Defined.

(** ** C3 *)

(** At price 2^255 the cost of 3 units leaves the word: whatever is paid
    (here 1, which is neither the cost nor the wrapped cost), the purchase
    ends in ArithmeticOverflow, not IncorrectPayment. *)
Lemma buy_incorrect_payment_counterexample :
  supported (details_at listed_dear tokenA) = true /\
  0 < 3 /\
  1 <> price (details_at listed_dear tokenA) * 3 /\
  1 <> (price (details_at listed_dear tokenA) * 3) mod uint256_limit /\
  execute engine everyone listed_dear buyerY (BuyToken tokenA 3 1 Done)
  = (listed_dear, Reverted ArithmeticOverflow) /\
  execute engine everyone listed_dear buyerY (BuyToken tokenA 3 1 Done)
  <> (listed_dear, Reverted IncorrectPayment).
Proof. evaluate. Qed.

Lemma buy_incorrect_payment_witness :
  execute engine everyone listed buyerY (BuyToken tokenA 3 299 Done)
  = (listed, Reverted IncorrectPayment).
Proof.
  apply (buy_incorrect_payment engine everyone listed buyerY tokenA 3 299); evaluate.
Defined.

(** ** C4 *)

(** At price 0 the cost of 2^200 units is 0 and is paid exactly; the
    purchase still ends in ArithmeticOverflow, on the scaling of the
    amount: the cost is not the only product that is guarded. *)
Lemma buy_overflow_counterexample :
  supported (details_at listed_free tokenA) = true /\
  is_uint256 (2 ^ 200) /\ 0 < 2 ^ 200 /\
  ((price (details_at listed_free tokenA) * 2 ^ 200) mod uint256_limit) / 2 ^ 200
    = price (details_at listed_free tokenA) /\
  0 = price (details_at listed_free tokenA) * 2 ^ 200 /\
  execute engine everyone listed_free buyerY (BuyToken tokenA (2 ^ 200) 0 Done)
  = (listed_free, Reverted ArithmeticOverflow).
Proof. evaluate. Qed.

Lemma buy_overflow_witness :
  execute engine everyone listed_dear buyerY (BuyToken tokenA 3 1 Done)
  = (listed_dear, Reverted ArithmeticOverflow) /\
  execute engine everyone listed_free buyerY (BuyToken tokenA (2 ^ 200) 0 Done)
  = (listed_free, Reverted ArithmeticOverflow).
Proof.
  split.
  - apply (proj1 (buy_overflow engine everyone listed_dear buyerY tokenA 3 1 Done
                    ltac:(evaluate) ltac:(evaluate) ltac:(evaluate) ltac:(evaluate))).
    evaluate.
  - apply (proj2 (buy_overflow engine everyone listed_free buyerY tokenA (2 ^ 200) 0 Done
                    ltac:(evaluate) ltac:(evaluate) ltac:(evaluate) ltac:(evaluate)));
      evaluate.
Defined.

(** ** C5 *)

Lemma reregister_overwrites_witness :
  exists s',
    execute engine everyone listed buyerY (CreateICOSale tokenA 200) = (s', Success) /\
    details_at s' tokenA =
      {| token := tokenA; supported := true; price := 200; creator := buyerY;
         name := asset_name alpha; symbol := asset_symbol alpha |} /\
    (forall t', t' <> tokenA -> details_at s' t' = details_at listed t') /\
    allSupportedTokens s' = allSupportedTokens listed ++ [tokenA] /\
    (2 <= occurrences tokenA (allSupportedTokens s'))%nat.
Proof.
  apply (reregister_overwrites engine everyone listed tokenA 200 buyerY alpha).
  - apply reachable_call, reachable_deploy.
  - evaluate.
  - evaluate.
Defined.

(** ** C6 *)


(** B, a second asset, listed by nobody yet; the market with both. *)
Definition tokenB : address := 4.

Definition beta : Asset :=
  {| asset_name := "Beta"; asset_symbol := "BET";
     balances := {[ engine := 5 * 10 ^ 18 ]} |}.

Definition deployed2 : State :=
  constructor deployer {[ buyerY := 1000 ]} {[ tokenA := alpha; tokenB := beta ]}.

Definition listed2 : State :=
  (execute engine everyone deployed2 creatorX (CreateICOSale tokenA 100)).1.

(** Y buys 3 units of A; X, when paid, withdraws one unit of A and lists
    B.  Then Y lists B again. *)
Definition busy_calls : list (address * Call) :=
  [(buyerY, BuyToken tokenA 3 300
              (Invoke creatorX (WidthdrawToken tokenA 1)
                 (Invoke creatorX (CreateICOSale tokenB 7) Done)));
   (buyerY, CreateICOSale tokenB 5)].

Example scenario_busy_calls :
  getSupportedTokens (execute_all engine everyone listed2 busy_calls)
  = [tokenA; tokenB; tokenB] /\
  creator (details_at (execute_all engine everyone listed2 busy_calls) tokenB)
  = buyerY /\
  token_balance (execute_all engine everyone listed2 busy_calls) tokenA creatorX
  = 1.
Proof. evaluate. Qed.


(** ** C7 *)

(** Y buys 3 units of A for 300; X, when paid, registers A again at price
    250.  The purchase completes, and the registry is another: A is twice
    in the index and its price is 250. *)
Definition reentrant_purchase : Call :=
  BuyToken tokenA 3 300 (Invoke creatorX (CreateICOSale tokenA 250) Done).


(** The log of that purchase: the registration made inside it, then the
    purchase itself. *)
Example scenario_reentrant_log :
  events (execute engine everyone listed buyerY reentrant_purchase).1
  = events listed
    ++ [TokenAdded tokenA 250 creatorX "Alpha" "ALP";
        TokenTransferred tokenA buyerY 3].
Proof. evaluate. Qed.

(** Y buys 3 units of A for 300; X, when paid, withdraws one unit of A. *)
Definition purchase_with_withdrawal : Call :=
  BuyToken tokenA 3 300 (Invoke creatorX (WidthdrawToken tokenA 1) Done).


(** ** C8 *)

Lemma withdraw_raw_units_witness :
  (exists s',
     execute engine everyone listed creatorX (WidthdrawToken tokenA 3) = (s', Success) /\
     token_balance s' tokenA creatorX = token_balance listed tokenA creatorX + 3 /\
     token_balance s' tokenA engine = token_balance listed tokenA engine - 3) /\
  (exists sb,
     execute engine everyone listed buyerY (BuyToken tokenA 3 300 Done)
     = (sb, Success) /\
     token_balance sb tokenA buyerY
     = token_balance listed tokenA buyerY + 3 * 10 ^ 18 /\
     token_balance sb tokenA engine
     = token_balance listed tokenA engine - 3 * 10 ^ 18).
Proof.
  destruct (withdraw_raw_units engine everyone listed creatorX tokenA 3)
    as [Hwithdraw Hbuy]; [evaluate .. |].
  split; [exact Hwithdraw |].
  apply (Hbuy buyerY 300); evaluate.
Defined.

(** ** C10 *)

Lemma withdraw_unlisted_witness :
  execute engine everyone listed buyerY (WidthdrawToken 55 1)
  = (listed, Reverted Unauthorized) /\
  ((execute engine everyone listed zero_address (WidthdrawToken 55 1)).2
   = Reverted NotSupported /\ zero_address = zero_address).
Proof.
  split.
  - apply (proj1 (withdraw_unlisted engine everyone listed buyerY 55 1
                    ltac:(apply reachable_call, reachable_deploy))); evaluate.
  - split; [evaluate |].
    apply (proj2 (withdraw_unlisted engine everyone listed zero_address 55 1
                    ltac:(apply reachable_call, reachable_deploy))).
    evaluate.
Defined.

(** ** More of the concrete market *)

(** No account takes plain transfers. *)
Definition nobody (a : address) : bool := false.

Lemma multiply_exact_witness :
  multiply 100 3 = Ok 300 <-> 300 = 100 * 3 /\ 100 * 3 < uint256_limit.
Proof. apply (multiply_exact 100 3 300). evaluate. Defined.

Lemma buy_succeeds_iff_witness :
  (execute engine everyone listed buyerY purchase_with_withdrawal).2 = Success <->
  300 <= ether_of listed buyerY /\
  supported (details_at listed tokenA) = true /\
  0 < 3 /\
  300 = price (details_at listed tokenA) * 3 /\
  300 < uint256_limit /\
  accepts_ether engine everyone (creator (details_at listed tokenA)) = true /\
  3 * 10 ^ 18 < uint256_limit /\
  3 * 10 ^ 18
    <= token_balance
         (after_creator_code engine everyone listed buyerY tokenA 300
            (Invoke creatorX (WidthdrawToken tokenA 1) Done))
         tokenA engine.
Proof.
  apply (buy_succeeds_iff engine everyone listed buyerY tokenA 3 300
           (Invoke creatorX (WidthdrawToken tokenA 1) Done)); evaluate.
Defined.

(** X, when paid, withdraws all the contract holds of A: the purchase, which
    met every condition when it was called, is turned down by the asset. *)
Example scenario_creator_drains :
  execute engine everyone listed buyerY
    (BuyToken tokenA 3 300
       (Invoke creatorX (WidthdrawToken tokenA (5 * 10 ^ 18)) Done))
  = (listed, Reverted TransferFailed).
Proof. evaluate. Qed.

(** X has withdrawn 4 * 10^18 units, so that the contract holds too little
    for a purchase of 3; X, when paid, gives them back, and the purchase
    completes. *)
Example scenario_creator_tops_up :
  let s := (execute engine everyone listed creatorX
              (WidthdrawToken tokenA (4 * 10 ^ 18))).1 in
  execute engine everyone s buyerY (BuyToken tokenA 3 300 Done)
  = (s, Reverted TransferFailed) /\
  (execute engine everyone s buyerY
     (BuyToken tokenA 3 300
        (SendAsset tokenA creatorX engine (4 * 10 ^ 18) Done))).2 = Success.
Proof. evaluate. Qed.

Lemma buy_unsupported_witness :
  execute engine everyone listed buyerY (BuyToken 55 3 5 Done)
  = (listed, Reverted NotSupported).
Proof.
  apply (buy_unsupported engine everyone listed buyerY 55 3 5); evaluate.
Defined.

Lemma zero_amount_rejected_witness :
  execute engine everyone listed buyerY (BuyToken tokenA 0 0 Done)
  = (listed, Reverted InvalidAmount) /\
  execute engine everyone listed creatorX (WidthdrawToken tokenA 0)
  = (listed, Reverted InvalidAmount).
Proof.
  split.
  - apply (proj1 (zero_amount_rejected engine everyone listed buyerY tokenA 0 Done
                    ltac:(evaluate))). evaluate.
  - apply (proj2 (zero_amount_rejected engine everyone listed creatorX tokenA 0 Done
                    ltac:(evaluate))). evaluate.
Defined.

Lemma buy_forwarding_failed_witness :
  execute engine nobody listed buyerY (BuyToken tokenA 3 300 Done)
  = (listed, Reverted PaymentForwardingFailed).
Proof.
  apply (buy_forwarding_failed engine nobody listed buyerY tokenA 3 300); evaluate.
Defined.

Lemma withdraw_more_than_held_witness :
  5 * 10 ^ 18 = token_balance listed tokenA engine /\
  execute engine everyone listed creatorX (WidthdrawToken tokenA (6 * 10 ^ 18))
  = (listed, Reverted InsufficientBalance).
Proof.
  apply (withdraw_more_than_held engine everyone listed creatorX tokenA
           (6 * 10 ^ 18) (5 * 10 ^ 18)); evaluate.
Defined.


Lemma contract_keeps_no_ether_witness :
  ether_of
    (execute_all engine everyone listed
       [(buyerY, BuyToken tokenA 3 300
                   (Invoke creatorX (CreateICOSale tokenA 250)
                      (SendEther creatorX buyerY 100 Done)));
        (creatorX, WidthdrawToken tokenA 1);
        (buyerY, DirectPayment 5)]) engine
  = ether_of listed engine.
Proof.
  apply (contract_keeps_no_ether engine everyone listed). evaluate.
Defined.



Lemma register_then_lookup_witness :
  exists s',
    execute engine everyone deployed creatorX (CreateICOSale tokenA 100)
    = (s', Success) /\
    getTokenDetails s' tokenA =
      Ok {| token := tokenA; supported := true; price := 100; creator := creatorX;
            name := asset_name alpha; symbol := asset_symbol alpha |} /\
    getSupportedTokens s' = getSupportedTokens deployed ++ [tokenA] /\
    ether s' = ether deployed /\ assets s' = assets deployed.
Proof.
  apply (register_then_lookup engine everyone deployed creatorX tokenA 100 alpha).
  evaluate.
Defined.

Lemma register_non_asset_witness :
  execute engine everyone deployed creatorX (CreateICOSale 77 100)
  = (deployed, Reverted ExternalCallFailed).
Proof.
  apply (register_non_asset engine everyone deployed creatorX 77 100). evaluate.
Defined.

Lemma index_iff_supported_witness :
  tokenA ∈ getSupportedTokens listed <-> supported (details_at listed tokenA) = true.
Proof.
  apply (index_iff_supported engine everyone listed tokenA).
  apply reachable_call, reachable_deploy.
Defined.

Lemma getTokenDetails_reachable_witness :
  match tokenDetails listed !! tokenA with
  | Some d => getTokenDetails listed tokenA = Ok d /\ token d = tokenA
  | None => getTokenDetails listed tokenA = Revert NotSupported
  end.
Proof.
  apply (getTokenDetails_reachable engine everyone listed tokenA).
  apply reachable_call, reachable_deploy.
Defined.

Lemma supported_forever_witness :
  supported
    (details_at
       (execute_all engine everyone listed
          [(buyerY, BuyToken tokenA 3 300 Done);
           (buyerY, CreateICOSale tokenA 200);
           (creatorX, WidthdrawToken tokenA 1)]) tokenA) = true.
Proof.
  apply (supported_forever engine everyone listed). evaluate.
Defined.

Lemma getAllTokens_reachable_witness :
  exists ds,
    getAllTokens listed = Ok ds /\
    map token ds = getSupportedTokens listed /\
    Forall (fun d => supported d = true) ds.
Proof.
  apply (getAllTokens_reachable engine everyone listed).
  apply reachable_call, reachable_deploy.
Defined.

Lemma getTokenCreatedBy_sound_witness :
  exists ds,
    getTokenCreatedBy listed creatorX = Ok ds /\
    Forall (fun d => creator d = creatorX /\ supported d = true /\
                     token d ∈ getSupportedTokens listed) ds /\
    (length ds <= length (getSupportedTokens listed))%nat.
Proof.
  apply (getTokenCreatedBy_sound engine everyone listed creatorX).
  apply reachable_call, reachable_deploy.
Defined.

Lemma reregistered_enumeration_witness :
  (exists ds,
     getTokenCreatedBy
       (execute engine everyone listed buyerY (CreateICOSale tokenA 200)).1 buyerY
     = Ok ds /\
     (2 <= length (filter (fun d => token d = tokenA) ds))%nat) /\
  (forall c, c <> buyerY ->
     exists ds,
       getTokenCreatedBy
         (execute engine everyone listed buyerY (CreateICOSale tokenA 200)).1 c
       = Ok ds /\
       Forall (fun d => token d <> tokenA) ds).
Proof.
  apply (reregistered_enumeration engine everyone listed tokenA 200 buyerY alpha).
  - apply reachable_call, reachable_deploy.
  - evaluate.
  - evaluate.
Defined.
